(** * portlist: listening-port lists, their order, deduplication and rendering

    A shallow embedding of [portlist/portlist.go]: the [Port] record, the
    comparator [lessThan], the change detector [sameInodes], the renderer
    [String] and the normaliser [sortAndDedup], followed by the properties
    the specification states about them.

    Conventions.
    - A Go [string] is a sequence of bytes: Rocq's [string] (a list of
      8-bit [ascii]).  Go's [<] on strings is the bytewise lexicographic
      order, which is [String.ltb].
    - A Go [uint16] is an [N]; the code does no arithmetic on it, only
      comparisons, so no wrap-around arises.  [uint16_ok] states the range.
    - A slice is a [list]; an index expression that Go would abort on
      (index out of range) yields [None] in the models below. *)

From Stdlib Require Import String Ascii NArith List Sorted Permutation Lia Bool.
From Stdlib Require Import DecimalString.
From stdpp Require Import base list sorting strings gmap.

(** ** Data model *)

(** [type Port struct { Proto string; Port uint16; Process string; inode string }].
    The field [Port] is spelled [port] here, the record already has that name. *)
Record Port : Type := mkPort {
  Proto   : string;  (* "tcp" or "udp" *)
  port    : N;       (* port number *)
  Process : string;  (* optional process name, if found *)
  inode   : string   (* OS-specific; "socket:[165614651]" on Linux *)
}.

(** [type List []Port] *)
Abbreviation List := (list Port) (only parsing).

Definition uint16_ok (p : Port) : Prop := (port p < 65536)%N.

(** The zero value [Port{}], as in [var last Port]. *)
Definition zeroPort : Port := mkPort EmptyString 0 EmptyString EmptyString.

(** Go's [==] on the struct: every field is compared. *)
Definition Port_eqb (a b : Port) : bool :=
  String.eqb (Proto a) (Proto b) && N.eqb (port a) (port b)
  && String.eqb (Process a) (Process b) && String.eqb (inode a) (inode b).

(** ** Comparisons of the Go language *)

Definition str_lt (s t : string) : bool := String.ltb s t.
Definition str_gt (s t : string) : bool := str_lt t s.
Definition u16_lt (m n : N) : bool := N.ltb m n.
Definition u16_gt (m n : N) : bool := u16_lt n m.

(** ** [func (a *Port) lessThan(b *Port) bool] *)
Definition lessThan (a b : Port) : bool :=
  if u16_lt (port a) (port b) then true
  else if u16_gt (port a) (port b) then false
  else if str_lt (Proto a) (Proto b) then true
  else if str_gt (Proto a) (Proto b) then false
  else if str_lt (inode a) (inode b) then true
  else if str_gt (inode a) (inode b) then false
  else if str_lt (Process a) (Process b) then true
  else if str_gt (Process a) (Process b) then false
  else false.

(** ** [sort.Slice]

    [sort.Slice(ps, less)] reorders [ps] so that no element is [less] than
    an element before it.  Which algorithm the library runs is not fixed
    (and it is not stable); an insertion sort stands for it here, and
    [sort_Slice_unique] below shows that under [lessThan] every algorithm
    meeting the contract [is_sort_of] returns this same list. *)
Fixpoint sort_insert (less : Port -> Port -> bool) (x : Port) (l : List) : List :=
  match l with
  | [] => [x]
  | y :: l' => if less x y then x :: y :: l' else y :: sort_insert less x l'
  end.

Definition sort_Slice (ps : List) (less : Port -> Port -> bool) : List :=
  foldr (sort_insert less) [] ps.

(** [a] may stand before [b] in a sorted slice: [b] is not less than [a]. *)
Definition not_after (less : Port -> Port -> bool) (a b : Port) : Prop :=
  less b a = false.

(** The contract of [sort.Slice]: a rearrangement without descents. *)
Definition is_sort_of (less : Port -> Port -> bool) (ps out : List) : Prop :=
  ps ≡ₚ out /\ Sorted (not_after less) out.

(** ** [func sortAndDedup(ps List) List]

    After the sort, [out := ps[:0]] shares the array of [ps]: every
    [append(out, p)] stores into that array, at index [len(out)], while the
    [range] loop is still reading it.  [backing] is the shared array,
    [out_len] is [len(out)] and [last] is the local of that name. *)
Record dedup_state : Type := mkState {
  backing : List;
  out_len : nat;
  last    : Port
}.

(** One iteration of [for _, p := range ps], at index [i].  [None] stands for
    leaving the array: a read past its end, or an [append] that no longer
    fits under [len(ps)]. *)
Definition dedup_body (st : dedup_state) (i : nat) : option dedup_state :=
  match backing st !! i with
  | None => None
  | Some p =>
      let protoPort := mkPort (Proto p) (port p) EmptyString EmptyString in
      if Port_eqb (last st) protoPort then Some st
      else if decide (out_len st < length (backing st)) then
        Some (mkState (<[out_len st := p]> (backing st)) (S (out_len st)) protoPort)
      else None
  end.

Fixpoint dedup_loop (st : dedup_state) (idx : list nat) : option dedup_state :=
  match idx with
  | [] => Some st
  | i :: idx' =>
      match dedup_body st i with
      | None => None
      | Some st' => dedup_loop st' idx'
      end
  end.

Definition sortAndDedup (ps : List) : option List :=
  let ps := sort_Slice ps lessThan in
  match dedup_loop (mkState ps 0 zeroPort) (seq 0 (length ps)) with
  | None => None
  | Some st => Some (take (out_len st) (backing st))
  end.

(** The same pass over an immutable list, for reasoning: [sortAndDedup_pass]
    shows that the loop above computes it. *)
Fixpoint dedup_pass (last : Port) (ps : List) : List :=
  match ps with
  | [] => []
  | p :: ps' =>
      let protoPort := mkPort (Proto p) (port p) EmptyString EmptyString in
      if Port_eqb last protoPort then dedup_pass last ps'
      else p :: dedup_pass protoPort ps'
  end.

(** ** [func (a List) sameInodes(b List) bool] *)
Definition differs (x y : Port) : bool :=
  negb (String.eqb (Proto x) (Proto y))
  || negb (N.eqb (port x) (port y))
  || negb (String.eqb (inode x) (inode y)).

Fixpoint sameInodes_loop (a b : List) (idx : list nat) : option bool :=
  match idx with
  | [] => Some true
  | i :: idx' =>
      match a !! i, b !! i with
      | Some x, Some y => if differs x y then Some false else sameInodes_loop a b idx'
      | _, _ => None
      end
  end.

Definition sameInodes (a b : List) : option bool :=
  if negb (Nat.eqb (length a) (length b)) then Some false
  else sameInodes_loop a b (seq 0 (length a)).

(** ** [func (pl List) String() string]

    [fmt] and [strconv] belong to the Go library.  Two of their functions
    are taken as given: [utf8.RuneCountInString], in which [fmt] measures
    the width of a string operand, and the escaping that [strconv.Quote]
    applies between the two quote characters it writes. *)
Class Fmt : Type := {
  RuneCountInString : string -> nat;
  quoteBody : string -> string
}.

Definition newline : ascii := "010"%char.
Definition dquote : ascii := "034"%char.

Fixpoint spaces (n : nat) : string :=
  match n with
  | O => EmptyString
  | S n' => String " "%char (spaces n')
  end.

(** [%-Ns]: the operand, then padding up to [N] runes. *)
Definition fmt_s_minus `{Fmt} (width : nat) (s : string) : string :=
  s +:+ spaces (width - RuneCountInString s).

(** The decimal digits of an unsigned integer. *)
Definition decimal (n : N) : string := NilEmpty.string_of_uint (N.to_uint n).

(** [%Nd] of an unsigned operand: padding up to [N] bytes, then the digits. *)
Definition fmt_d (width : nat) (n : N) : string :=
  spaces (width - String.length (decimal n)) +:+ decimal n.

(** [%#v] of a string operand: [strconv.Quote]. *)
Definition fmt_sharp_v `{Fmt} (s : string) : string :=
  String dquote (quoteBody s +:+ String dquote EmptyString).

(** [fmt.Fprintf(&sb, "%-3s %5d %-17s %#v\n", v.Proto, v.Port, v.inode, v.Process)] *)
Definition Fprintf_row `{Fmt} (sb : string) (v : Port) : string :=
  sb +:+ fmt_s_minus 3 (Proto v) +:+ " " +:+ fmt_d 5 (port v) +:+ " "
     +:+ fmt_s_minus 17 (inode v) +:+ " " +:+ fmt_sharp_v (Process v)
     +:+ String newline EmptyString.

(** [strings.TrimRight(s, cutset)] for a cutset of one ASCII byte: every
    trailing occurrence of that byte is removed. *)
Fixpoint TrimRight (s : string) (c : ascii) : string :=
  match s with
  | EmptyString => EmptyString
  | String a s' =>
      match TrimRight s' c with
      | EmptyString => if Ascii.eqb a c then EmptyString else String a EmptyString
      | t => String a t
      end
  end.

Definition List_String `{Fmt} (pl : List) : string :=
  TrimRight (fold_left Fprintf_row pl EmptyString) newline.

(** What one call of [Fprintf] writes, without the final newline. *)
Definition row_text `{Fmt} (v : Port) : string :=
  fmt_s_minus 3 (Proto v) +:+ " " +:+ fmt_d 5 (port v) +:+ " "
    +:+ fmt_s_minus 17 (inode v) +:+ " " +:+ fmt_sharp_v (Process v).

(** [P] holds of the [count] numbers from [start] on. *)
Fixpoint all_from (P : N -> bool) (start : N) (count : nat) : bool :=
  match count with
  | O => true
  | S count' => P start && all_from P (N.succ start) count'
  end.

(** *** The rendering the specification describes *)

(** [out] is [s] left-justified to at least [width] characters. *)
Definition left_justified `{Fmt} (width : nat) (s out : string) : Prop :=
  exists k, out = s +:+ spaces k
            /\ RuneCountInString s + k = Nat.max width (RuneCountInString s).

(** [out] is [s] right-justified to at least [width] characters. *)
Definition right_justified (width : nat) (s out : string) : Prop :=
  exists k, out = spaces k +:+ s
            /\ k + String.length s = Nat.max width (String.length s).

(** [line] is the line of the observation [v]. *)
Definition row_of `{Fmt} (v : Port) (line : string) : Prop :=
  exists c1 c2 c3,
    left_justified 3 (Proto v) c1 /\
    right_justified 5 (decimal (port v)) c2 /\
    left_justified 17 (inode v) c3 /\
    line = c1 +:+ " " +:+ c2 +:+ " " +:+ c3 +:+ " "
              +:+ String dquote (quoteBody (Process v) +:+ String dquote EmptyString).

(** ** Change detection, as the specification words it *)

Definition same_fields (x y : Port) : Prop :=
  Proto x = Proto y /\ port x = port y /\ inode x = inode y.

Definition with_Process (p : Port) (name : string) : Port :=
  mkPort (Proto p) (port p) name (inode p).

(** [S'] is [S] with the process field rewritten at any number of places. *)
Definition only_process_modified (S S' : List) : Prop :=
  Forall2 (fun x x' => exists name, x' = with_Process x name) S S'.

(** ** Keys

    The pair [(Proto, Port)], which [sortAndDedup] builds as
    [Port{Proto: p.Proto, Port: p.Port}] and compares with [==]. *)
Definition same_key (a b : Port) : Prop := Proto a = Proto b /\ port a = port b.

#[global] Instance same_key_dec a b : Decision (same_key a b).
Proof. unfold same_key. apply _. Defined.

(** A value as [last] holds it: the other two fields are empty. *)
Definition key_only (a : Port) : Prop := Process a = EmptyString /\ inode a = EmptyString.

(** ** The order of the specification

    Lexicographic order on byte strings, written without reference to
    [String.compare]: a proper prefix comes first, otherwise the first
    differing byte decides. *)
Inductive lex_lt : string -> string -> Prop :=
| lex_lt_empty c s : lex_lt EmptyString (String c s)
| lex_lt_head c1 c2 s1 s2 :
    (N_of_ascii c1 < N_of_ascii c2)%N -> lex_lt (String c1 s1) (String c2 s2)
| lex_lt_tail c s1 s2 : lex_lt s1 s2 -> lex_lt (String c s1) (String c s2).

(** The tie-break chain of the specification, most significant first:
    port, then protocol, then socket identity, then process. *)
Definition chain_before (a b : Port) : Prop :=
  (port a < port b)%N \/
  (port a = port b /\
   (lex_lt (Proto a) (Proto b) \/
    (Proto a = Proto b /\
     (lex_lt (inode a) (inode b) \/
      (inode a = inode b /\ lex_lt (Process a) (Process b)))))).

(** A well-formed batch: every protocol is ["tcp"] or ["udp"]. *)
Definition well_formed (batch : List) : Prop :=
  Forall (fun p => Proto p = "tcp" \/ Proto p = "udp") batch.

(** The order on keys induced by the chain: port first, then protocol. *)
Definition key_lt (a b : Port) : Prop :=
  (port a < port b)%N \/ (port a = port b /\ lex_lt (Proto a) (Proto b)).

Definition key_le (a b : Port) : Prop := key_lt a b \/ same_key a b.

(** The order on [(socketIdentity, process)] pairs, identity first. *)
Definition pair_lt (a b : Port) : Prop :=
  lex_lt (inode a) (inode b) \/ (inode a = inode b /\ lex_lt (Process a) (Process b)).

Definition pair_le (a b : Port) : Prop :=
  pair_lt a b \/ (inode a = inode b /\ Process a = Process b).

(** ** What [sortAndDedup] leaves in the caller's slice

    [sortAndDedup] "sorts ps in place": the sort and every [append]
    store into the array of the argument.  This is that array after the
    call, as the caller sees it through its own slice. *)
Definition sortAndDedup_slice (ps : List) : option List :=
  let ps := sort_Slice ps lessThan in
  match dedup_loop (mkState ps 0 zeroPort) (seq 0 (length ps)) with
  | None => None
  | Some st => Some (backing st)
  end.

(** The key of the zero [Port]: empty protocol, port 0. *)
Definition zero_key (p : Port) : Prop := Proto p = EmptyString /\ port p = 0%N.

#[global] Instance zero_key_dec p : Decision (zero_key p).
Proof. unfold zero_key. apply _. Defined.

(** [out] is the canonical snapshot of [batch]: strictly increasing, made
    of observations of the batch, each the least of its key there, and
    holding one for every key of the batch but the zero key. *)
Definition canonical_for (batch out : List) : Prop :=
  StronglySorted (fun a b => lessThan a b = true) out /\
  (forall q, q ∈ out ->
     q ∈ batch /\ ~ zero_key q /\
     forall r, r ∈ batch -> same_key r q -> pair_le q r) /\
  (forall p, p ∈ batch -> ~ zero_key p -> exists q, q ∈ out /\ same_key q p).

(** The observation with its process name blanked. *)
Definition erase_Process (p : Port) : Port := with_Process p EmptyString.

(** * Package hostinfo (Linux)

    The functions of [hostinfo_linux.go] that compute on strings.  What
    they take from the machine and from packages outside the sources is
    gathered in [Host]:
    - [ReadFile path] is the first result of [os.ReadFile] (every caller
      drops the second, the error);
    - [CutPrefix] is [strs.CutPrefix];
    - [FieldsFunc_IsSpace] is [strings.Fields] on a string that has a byte
      outside ASCII, where the library splits at Unicode spaces;
    - [LookPath] is [exec.LookPath], [None] for an error;
    - [RunVersion path] runs [path --version]: what it wrote to standard
      output, and the message of the error of [Run], if any;
    - [FindStringSubmatch] is that method of [versionMatcher]. *)
Class Host : Type := {
  ReadFile : string -> string;
  CutPrefix : string -> string -> string * bool;
  FieldsFunc_IsSpace : string -> list string;
  LookPath : string -> option string;
  RunVersion : string -> string * option string;
  FindStringSubmatch : string -> option (list string)
}.

(** ** Byte strings: slices, [bytes.IndexByte], [strings.Trim] *)

(** [s[:n]] and [s[n:]], for [n] within the string. *)
Fixpoint slice_to (n : nat) (s : string) : string :=
  match n, s with
  | S n', String a s' => String a (slice_to n' s')
  | _, _ => EmptyString
  end.

Fixpoint slice_from (n : nat) (s : string) : string :=
  match n, s with
  | S n', String _ s' => slice_from n' s'
  | _, _ => s
  end.

(** The index of the first [c] in [s]; [None] for Go's [-1]. *)
Fixpoint IndexByte (s : string) (c : ascii) : option nat :=
  match s with
  | EmptyString => None
  | String a s' => if Ascii.eqb a c then Some 0 else S <$> IndexByte s' c
  end.

Definition in_cutset (cutset : string) (c : ascii) : bool :=
  existsb (Ascii.eqb c) (list_ascii_of_string cutset).

Fixpoint trimLeftASCII (s cutset : string) : string :=
  match s with
  | EmptyString => EmptyString
  | String a s' => if in_cutset cutset a then trimLeftASCII s' cutset else s
  end.

Fixpoint trimRightASCII (s cutset : string) : string :=
  match s with
  | EmptyString => EmptyString
  | String a s' =>
      match trimRightASCII s' cutset with
      | EmptyString => if in_cutset cutset a then EmptyString else String a EmptyString
      | t => String a t
      end
  end.

(** [strings.Trim(s, cutset)] for a cutset of ASCII bytes, the only kind
    this file passes: the bytes of the cutset are removed from both ends. *)
Definition Trim (s cutset : string) : string :=
  trimLeftASCII (trimRightASCII s cutset) cutset.

(** [s] begins, or ends, with a byte of the cutset. *)
Definition starts_in (cutset s : string) : bool :=
  match s with
  | EmptyString => false
  | String a _ => in_cutset cutset a
  end.

Fixpoint ends_in (cutset s : string) : bool :=
  match s with
  | EmptyString => false
  | String a EmptyString => in_cutset cutset a
  | String _ s' => ends_in cutset s'
  end.

(** [strings.HasSuffix] and [strings.TrimSuffix]. *)
Definition HasSuffix (s suffix : string) : bool :=
  Nat.leb (String.length suffix) (String.length s)
  && String.eqb (slice_from (String.length s - String.length suffix) s) suffix.

Definition TrimSuffix (s suffix : string) : string :=
  if HasSuffix s suffix then slice_to (String.length s - String.length suffix) s else s.

(** ** [func linuxDeviceModel() string] *)

Definition device_model_paths : list string :=
  [ "/proc/sys/kernel/syno_hw_version"; "/sys/firmware/devicetree/base/model" ]%string.

(** The cutset ["\x00\r\n\t "]. *)
Definition device_model_cutset : string :=
  String "000"%char (String "013"%char (String "010"%char
    (String "009"%char (String " "%char EmptyString)))).

Fixpoint linuxDeviceModel_range `{Host} (paths : list string) : string :=
  match paths with
  | [] => EmptyString
  | path :: paths' =>
      let s := Trim (ReadFile path) device_model_cutset in
      if negb (String.eqb s EmptyString) then s else linuxDeviceModel_range paths'
  end.

Definition linuxDeviceModel `{Host} : string :=
  linuxDeviceModel_range device_model_paths.

(** ** The line callback of [linuxVersionMeta]

    [lineread.File(propFile, func(line []byte) error { ... })] fills the
    map [m] from the lines of an os-release file. *)

(** The cutset of the two quote characters. *)
Definition quote_cutset : string := String dquote (String "'"%char EmptyString).

Definition os_release_line (m : gmap string string) (line : string)
  : gmap string string :=
  match IndexByte line "="%char with
  | None => m
  | Some eq => <[slice_to eq line := Trim (slice_from (eq + 1) line) quote_cutset]> m
  end.

(** The map after the callback has run on every line, in order. *)
Definition os_release_map (lines : list string) : gmap string string :=
  fold_left os_release_line lines ∅.

(** What a line contributes: its key and value, if it has an [=]. *)
Definition line_entry (line : string) : option (string * string) :=
  match IndexByte line "="%char with
  | None => None
  | Some eq => Some (slice_to eq line, Trim (slice_from (eq + 1) line) quote_cutset)
  end.

(** ** [func getQnapQtsVersion(versionInfo string) string] *)

(** The table [asciiSpace] of package [strings]. *)
Definition asciiSpace (c : ascii) : bool :=
  in_cutset (String "009"%char (String "010"%char (String "011"%char
    (String "012"%char (String "013"%char (String " "%char EmptyString)))))) c.

Definition is_ascii (c : ascii) : bool := N.ltb (N_of_ascii c) 128.

Fixpoint all_bytes (P : ascii -> bool) (s : string) : bool :=
  match s with
  | EmptyString => true
  | String a s' => P a && all_bytes P s'
  end.

(** [strings.Fields] on ASCII input: the maximal runs of bytes that are
    not spaces; [cur] is the run being read. *)
Fixpoint Fields_ascii (cur : string) (s : string) : list string :=
  match s with
  | EmptyString => if String.eqb cur EmptyString then [] else [cur]
  | String a s' =>
      if asciiSpace a then
        (if String.eqb cur EmptyString then Fields_ascii EmptyString s'
         else cur :: Fields_ascii EmptyString s')
      else Fields_ascii (cur +:+ String a EmptyString) s'
  end.

(** No byte of [s] is an ASCII space. *)
Definition no_space (s : string) : bool :=
  all_bytes (fun c => negb (asciiSpace c)) s.

Definition Fields `{Host} (s : string) : list string :=
  if all_bytes is_ascii s then Fields_ascii EmptyString s else FieldsFunc_IsSpace s.

Fixpoint getQnapQtsVersion_range `{Host} (fields : list string) : string :=
  match fields with
  | [] => EmptyString
  | field :: fields' =>
      let '(suffix, ok) := CutPrefix field "QTSFW_" in
      if ok then suffix else getQnapQtsVersion_range fields'
  end.

Definition getQnapQtsVersion `{Host} (versionInfo : string) : string :=
  getQnapQtsVersion_range (Fields versionInfo).

(** What the comment of [strs.CutPrefix] promises. *)
Definition CutPrefix_contract `{Host} : Prop :=
  forall s prefix,
    (forall after, s = prefix +:+ after -> CutPrefix s prefix = (after, true)) /\
    ((forall after, s <> prefix +:+ after) -> CutPrefix s prefix = (s, false)).

(** ** [func detectBinary(name string) (ret tailcfg.LinuxFWBinInfo)] *)

Record LinuxFWBinInfo : Type := mkBinInfo {
  Present : bool;
  Version : string;
  Flavor  : string;
  Error   : string
}.

(** [None] stands for the run-time panic of [result[4]] on a slice of
    fewer than five strings. *)
Definition detectBinary `{Host} (name : string) : option LinuxFWBinInfo :=
  match LookPath name with
  | None => Some (mkBinInfo false EmptyString EmptyString EmptyString)
  | Some path =>
      match RunVersion path with
      | (_, Some err) => Some (mkBinInfo false EmptyString EmptyString err)
      | (out, None) =>
          let version := TrimSuffix out (String newline EmptyString) in
          let version :=
            if Nat.ltb 64 (String.length version) then slice_to 64 version
            else version in
          if String.eqb name "iptables" || String.eqb name "ip6tables" then
            match FindStringSubmatch version with
            | None => Some (mkBinInfo true version EmptyString EmptyString)
            | Some result =>
                match result !! 4 with
                | Some flavor => Some (mkBinInfo true version flavor EmptyString)
                | None => None
                end
            end
          else Some (mkBinInfo true version EmptyString EmptyString)
      end
  end.

(** ** A host for the examples *)

(** [s] without the leading [prefix], if it has it: a function that keeps
    the promise [CutPrefix_contract]. *)
Fixpoint cut_prefix (s prefix : string) {struct prefix} : option string :=
  match prefix, s with
  | EmptyString, _ => Some s
  | String p prefix', String a s' =>
      if Ascii.eqb a p then cut_prefix s' prefix' else None
  | String _ _, EmptyString => None
  end.

(** A Raspberry Pi with [iptables] over nftables and nothing else. *)
Definition example_Host : Host := {|
  ReadFile path :=
    if String.eqb path "/sys/firmware/devicetree/base/model"
    then "Raspberry Pi 4 Model B Rev 1.2" +:+ String "000"%char EmptyString
    else EmptyString;
  CutPrefix s prefix :=
    match cut_prefix s prefix with
    | Some after => (after, true)
    | None => (s, false)
    end;
  FieldsFunc_IsSpace _ := [];
  LookPath name :=
    if String.eqb name "iptables" then Some "/usr/sbin/iptables"%string else None;
  RunVersion _ :=
    ("iptables v1.8.7 (nf_tables)" +:+ String newline EmptyString, None);
  FindStringSubmatch _ :=
    Some [ "v1.8.7 (nf_tables"; "1"; "8"; "7"; "nf_tables" ]%string
|}.

(** ** Example inputs *)

(** Batches and snapshots the examples below run on. *)
Definition handoff_batch : List :=
  [ mkPort "tcp" 80 "nginx" "sock2"; mkPort "udp" 53 "dns" "sock3";
    mkPort "tcp" 80 EmptyString EmptyString; mkPort "tcp" 53 "dns" "sock4" ].

Definition handoff_batch_permuted : List :=
  [ mkPort "tcp" 53 "dns" "sock4"; mkPort "tcp" 80 EmptyString EmptyString;
    mkPort "udp" 53 "dns" "sock3"; mkPort "tcp" 80 "nginx" "sock2" ].

Definition ssh_snapshot : List := [ mkPort "tcp" 22 "sshd" "sockA" ].
Definition ssh_snapshot_renamed : List := [ mkPort "tcp" 22 "sshd2" "sockA" ].
Definition ssh_snapshot_rebound : List := [ mkPort "tcp" 22 "sshd" "sockB" ].

(** On operands of printable ASCII without quote or backslash, the two
    library functions are the length and the identity. *)
Definition ascii_Fmt : Fmt :=
  {| RuneCountInString := String.length; quoteBody := fun s => s |}.

(** ** Facts about the string order *)

Section StringOrder.

Lemma ascii_compare_refl c : Ascii.compare c c = Eq.
Proof. unfold Ascii.compare. apply N.compare_refl. Qed.

Lemma string_compare_refl s : String.compare s s = Eq.
Proof.
  induction s as [|c s IH]; simpl; [reflexivity|].
  rewrite ascii_compare_refl. exact IH.
Qed.

Lemma string_compare_Eq s t : String.compare s t = Eq <-> s = t.
Proof.
  split; [apply String.compare_eq_iff|].
  intros ->. apply string_compare_refl.
Qed.

Lemma string_compare_Gt s t : String.compare s t = Gt <-> String.compare t s = Lt.
Proof.
  rewrite (String.compare_antisym s t).
  destruct (String.compare t s); simpl; split; congruence.
Qed.

Lemma ascii_compare_Lt c d :
  Ascii.compare c d = Lt <-> (N_of_ascii c < N_of_ascii d)%N.
Proof. unfold Ascii.compare. apply N.compare_lt_iff. Qed.

Lemma string_compare_lex s t : String.compare s t = Lt <-> lex_lt s t.
Proof.
  split.
  - revert t. induction s as [|c s IH]; intros [|d t]; simpl; try discriminate.
    + intros _. constructor.
    + destruct (Ascii.compare c d) eqn:E; try discriminate.
      * apply Ascii.compare_eq_iff in E as ->. intros H. apply lex_lt_tail, IH, H.
      * intros _. apply lex_lt_head, ascii_compare_Lt, E.
  - induction 1 as [c s|c1 c2 s1 s2 H|c s1 s2 H IH]; simpl.
    + reflexivity.
    + apply ascii_compare_Lt in H. rewrite H. reflexivity.
    + rewrite ascii_compare_refl. exact IH.
Qed.

Lemma str_lt_lex s t : str_lt s t = true <-> lex_lt s t.
Proof.
  unfold str_lt, String.ltb. rewrite <- string_compare_lex.
  destruct (String.compare s t); split; congruence.
Qed.

Lemma lex_lt_irrefl s : ~ lex_lt s s.
Proof.
  intros H. apply string_compare_lex in H.
  rewrite string_compare_refl in H. discriminate.
Qed.

Lemma lex_lt_trans s t u : lex_lt s t -> lex_lt t u -> lex_lt s u.
Proof.
  intros H. revert u.
  induction H as [c s|c1 c2 s1 s2 H|c s1 s2 H IH]; intros u Hu; inversion Hu; subst.
  - constructor.
  - constructor.
  - apply lex_lt_head. lia.
  - apply lex_lt_head. assumption.
  - apply lex_lt_head. assumption.
  - apply lex_lt_tail. auto.
Qed.

Lemma lex_lt_asym s t : lex_lt s t -> ~ lex_lt t s.
Proof. intros H1 H2. exact (lex_lt_irrefl s (lex_lt_trans _ _ _ H1 H2)). Qed.

Lemma lex_lt_trichotomy s t : lex_lt s t \/ s = t \/ lex_lt t s.
Proof.
  destruct (String.compare s t) eqn:E.
  - right; left. apply string_compare_Eq, E.
  - left. apply string_compare_lex, E.
  - right; right. apply string_compare_lex, string_compare_Gt, E.
Qed.

Lemma str_lt_false s t : str_lt s t = false <-> ~ lex_lt s t.
Proof.
  rewrite <- str_lt_lex. destruct (str_lt s t); split; congruence.
Qed.

Lemma lex_lt_empty_first s : s <> EmptyString -> lex_lt EmptyString s.
Proof. destruct s; [congruence|constructor]. Qed.

Lemma lex_lt_not_empty s : ~ lex_lt s EmptyString.
Proof. inversion 1. Qed.

End StringOrder.

(** ** The comparator is the chain of the specification *)

Section Comparator.

Lemma u16_lt_spec m n : u16_lt m n = true <-> (m < n)%N.
Proof. apply N.ltb_lt. Qed.

Lemma u16_lt_false m n : u16_lt m n = false <-> ~ (m < n)%N.
Proof. unfold u16_lt. rewrite N.ltb_nlt. reflexivity. Qed.

Lemma lessThan_chain a b : lessThan a b = true <-> chain_before a b.
Proof.
  unfold lessThan, chain_before, u16_gt, str_gt.
  destruct (u16_lt (port a) (port b)) eqn:E1.
  { apply u16_lt_spec in E1. tauto. }
  apply u16_lt_false in E1.
  destruct (u16_lt (port b) (port a)) eqn:E2.
  { apply u16_lt_spec in E2. split; [intros [=]|]. intros [?|[? _]]; lia. }
  apply u16_lt_false in E2.
  assert (port a = port b) as Hp by lia.
  destruct (str_lt (Proto a) (Proto b)) eqn:E3.
  { apply str_lt_lex in E3. tauto. }
  apply str_lt_false in E3.
  destruct (str_lt (Proto b) (Proto a)) eqn:E4.
  { apply str_lt_lex in E4. split; [intros [=]|].
    intros [?|[_ [?|[Heq _]]]]; [lia|tauto|].
    rewrite Heq in E4. destruct (lex_lt_irrefl _ E4). }
  apply str_lt_false in E4.
  assert (Proto a = Proto b) as Hq
    by (destruct (lex_lt_trichotomy (Proto a) (Proto b)) as [?|[?|?]]; tauto).
  destruct (str_lt (inode a) (inode b)) eqn:E5.
  { apply str_lt_lex in E5. tauto. }
  apply str_lt_false in E5.
  destruct (str_lt (inode b) (inode a)) eqn:E6.
  { apply str_lt_lex in E6. split; [intros [=]|].
    intros [?|[_ [?|[_ [?|[Heq _]]]]]]; [lia|tauto|tauto|].
    rewrite Heq in E6. destruct (lex_lt_irrefl _ E6). }
  apply str_lt_false in E6.
  assert (inode a = inode b) as Hi
    by (destruct (lex_lt_trichotomy (inode a) (inode b)) as [?|[?|?]]; tauto).
  destruct (str_lt (Process a) (Process b)) eqn:E7.
  { apply str_lt_lex in E7. tauto. }
  apply str_lt_false in E7.
  assert (false = true <-> False) as Hft by (split; [discriminate|tauto]).
  destruct (str_lt (Process b) (Process a)); rewrite Hft; tauto.
Qed.

Lemma chain_before_irrefl a : ~ chain_before a a.
Proof.
  unfold chain_before.
  intros [?|[_ [H|[_ [H|[_ H]]]]]]; [lia|..]; exact (lex_lt_irrefl _ H).
Qed.

Lemma chain_before_trans a b c :
  chain_before a b -> chain_before b c -> chain_before a c.
Proof.
  unfold chain_before.
  intros [H1|[E1 H1]] [H2|[E2 H2]]; [left; lia|left; lia|left; lia|].
  right. split; [congruence|].
  destruct H1 as [H1|[F1 H1]], H2 as [H2|[F2 H2]].
  - left. eapply lex_lt_trans; eassumption.
  - left. rewrite <- F2. assumption.
  - left. rewrite F1. assumption.
  - right. split; [congruence|].
    destruct H1 as [H1|[G1 H1]], H2 as [H2|[G2 H2]].
    + left. eapply lex_lt_trans; eassumption.
    + left. rewrite <- G2. assumption.
    + left. rewrite G1. assumption.
    + right. split; [congruence|]. eapply lex_lt_trans; eassumption.
Qed.

Lemma chain_before_total a b :
  ~ chain_before a b -> ~ chain_before b a -> a = b.
Proof.
  unfold chain_before. intros Hab Hba.
  destruct a as [q1 p1 r1 i1], b as [q2 p2 r2 i2]; simpl in *.
  assert (p1 = p2) as -> by lia.
  destruct (lex_lt_trichotomy q1 q2) as [?|[->|?]]; [tauto| |tauto].
  destruct (lex_lt_trichotomy i1 i2) as [?|[->|?]]; [tauto| |tauto].
  destruct (lex_lt_trichotomy r1 r2) as [?|[->|?]]; [tauto| |tauto].
  reflexivity.
Qed.

Lemma lessThan_irrefl a : lessThan a a = false.
Proof.
  destruct (lessThan a a) eqn:E; [|reflexivity].
  apply lessThan_chain in E. destruct (chain_before_irrefl _ E).
Qed.

Lemma lessThan_trans a b c :
  lessThan a b = true -> lessThan b c = true -> lessThan a c = true.
Proof.
  rewrite !lessThan_chain. apply chain_before_trans.
Qed.

Lemma lessThan_total a b :
  lessThan a b = false -> lessThan b a = false -> a = b.
Proof.
  intros H1 H2. apply chain_before_total; rewrite <- lessThan_chain; congruence.
Qed.

Lemma lessThan_asym a b : lessThan a b = true -> lessThan b a = false.
Proof.
  intros H. destruct (lessThan b a) eqn:E; [|reflexivity].
  pose proof (lessThan_trans _ _ _ H E) as F.
  rewrite lessThan_irrefl in F. discriminate.
Qed.

End Comparator.

(** ** [sort.Slice] under [lessThan] *)

Section Sorting.

#[local] Instance not_after_trans : Transitive (not_after lessThan).
Proof.
  intros a b c Hab Hbc. unfold not_after in *.
  destruct (lessThan c a) eqn:Hca; [|reflexivity].
  destruct (lessThan a b) eqn:Hlt.
  - rewrite (lessThan_trans _ _ _ Hca Hlt) in Hbc. discriminate.
  - rewrite (lessThan_total _ _ Hlt Hab) in Hca. congruence.
Qed.

#[local] Instance not_after_antisym : AntiSymm (=) (not_after lessThan).
Proof. intros a b Hab Hba. apply lessThan_total; assumption. Qed.

Lemma not_after_refl a : not_after lessThan a a.
Proof. apply lessThan_irrefl. Qed.

Lemma sort_insert_perm less x l : sort_insert less x l ≡ₚ x :: l.
Proof.
  induction l as [|y l IH]; simpl; [reflexivity|].
  destruct (less x y); [reflexivity|].
  rewrite IH. apply Permutation_swap.
Qed.

Lemma sort_Slice_perm less ps : ps ≡ₚ sort_Slice ps less.
Proof.
  induction ps as [|x ps IH]; simpl; [reflexivity|].
  rewrite sort_insert_perm. constructor. exact IH.
Qed.

Lemma sort_insert_HdRel a x l :
  not_after lessThan a x -> HdRel (not_after lessThan) a l ->
  HdRel (not_after lessThan) a (sort_insert lessThan x l).
Proof.
  intros Hax Hl. destruct l as [|y l]; simpl.
  - constructor. exact Hax.
  - destruct (lessThan x y); constructor; [exact Hax|].
    inversion Hl; assumption.
Qed.

Lemma sort_insert_sorted x l :
  Sorted (not_after lessThan) l -> Sorted (not_after lessThan) (sort_insert lessThan x l).
Proof.
  induction 1 as [|y l Hl IH Hhd]; simpl.
  - repeat constructor.
  - destruct (lessThan x y) eqn:E.
    + constructor; [constructor; assumption|].
      constructor. apply lessThan_asym, E.
    + constructor; [exact IH|].
      apply sort_insert_HdRel; [exact E|exact Hhd].
Qed.

Lemma sort_Slice_sorted ps : Sorted (not_after lessThan) (sort_Slice ps lessThan).
Proof.
  induction ps as [|x ps IH]; simpl; [constructor|].
  apply sort_insert_sorted, IH.
Qed.

Lemma sort_Slice_contract ps : is_sort_of lessThan ps (sort_Slice ps lessThan).
Proof. split; [apply sort_Slice_perm|apply sort_Slice_sorted]. Qed.

(** Whatever [sort.Slice] does inside, its result is this list. *)
Lemma sort_Slice_unique ps out :
  is_sort_of lessThan ps out -> out = sort_Slice ps lessThan.
Proof.
  intros [Hp Hs]. apply (Sorted_unique (not_after lessThan)).
  - exact Hs.
  - apply sort_Slice_sorted.
  - rewrite <- Hp. apply sort_Slice_perm.
Qed.

Lemma sort_Slice_Permutation ps qs :
  ps ≡ₚ qs -> sort_Slice ps lessThan = sort_Slice qs lessThan.
Proof.
  intros H. apply sort_Slice_unique. split.
  - rewrite <- H. apply sort_Slice_perm.
  - apply sort_Slice_sorted.
Qed.

Lemma sort_Slice_strongly ps :
  StronglySorted (not_after lessThan) (sort_Slice ps lessThan).
Proof. apply Sorted_StronglySorted; [apply _|apply sort_Slice_sorted]. Qed.

Lemma sort_Slice_elem p ps : p ∈ sort_Slice ps lessThan <-> p ∈ ps.
Proof. rewrite <- (sort_Slice_perm lessThan ps). reflexivity. Qed.

End Sorting.

(** ** The in-place loop computes [dedup_pass] *)

Section InPlace.

Lemma dedup_loop_pass rest : forall arr n lst i,
  length arr = i + length rest -> drop i arr = rest -> n <= i ->
  exists st, dedup_loop (mkState arr n lst) (seq i (length rest)) = Some st
             /\ take (out_len st) (backing st) = take n arr ++ dedup_pass lst rest.
Proof.
  induction rest as [|p rest IH]; intros arr n lst i Hlen Hdrop Hn; simpl.
  - eexists; split; [reflexivity|]. simpl. rewrite app_nil_r. reflexivity.
  - assert (arr !! i = Some p) as Hi.
    { rewrite <- (Nat.add_0_r i), <- lookup_drop, Hdrop. reflexivity. }
    assert (drop (S i) arr = rest) as Hdrop'.
    { rewrite (drop_S _ _ _ Hi) in Hdrop. congruence. }
    unfold dedup_body; simpl. rewrite Hi.
    destruct (Port_eqb lst (mkPort (Proto p) (port p) EmptyString EmptyString)).
    + apply IH; [simpl in Hlen; lia|exact Hdrop'|lia].
    + simpl in Hlen. destruct (decide (n < length arr)) as [Hlt|Hge]; [|lia].
      destruct (IH (<[n:=p]> arr) (S n) (mkPort (Proto p) (port p) EmptyString EmptyString) (S i))
        as (st & Hst & Hout).
      * rewrite length_insert. lia.
      * rewrite drop_insert_lt by lia. exact Hdrop'.
      * lia.
      * exists st. split; [exact Hst|]. rewrite Hout.
        rewrite (take_S_r _ _ p) by (apply list_lookup_insert_eq; exact Hlt).
        rewrite take_insert_ge by lia. rewrite <- app_assoc. reflexivity.
Qed.

Lemma sortAndDedup_pass ps :
  sortAndDedup ps = Some (dedup_pass zeroPort (sort_Slice ps lessThan)).
Proof.
  unfold sortAndDedup.
  destruct (dedup_loop_pass (sort_Slice ps lessThan) (sort_Slice ps lessThan) 0 zeroPort 0)
    as (st & Hst & Hout); [reflexivity|reflexivity|lia|].
  rewrite Hst, Hout. reflexivity.
Qed.

End InPlace.

(** ** The deduplication pass over a sorted list *)

Section Dedup.

Lemma Port_eqb_eq a b : Port_eqb a b = true <-> a = b.
Proof.
  unfold Port_eqb. rewrite !andb_true_iff, !String.eqb_eq, N.eqb_eq.
  destruct a, b; simpl. split; [intros [[[-> ->] ->] ->]; reflexivity|].
  intros [= -> -> -> ->]. auto.
Qed.

Lemma Port_eqb_key lst p :
  key_only lst ->
  Port_eqb lst (mkPort (Proto p) (port p) EmptyString EmptyString) = true <-> same_key lst p.
Proof.
  intros [Hp Hi]. rewrite Port_eqb_eq. unfold same_key.
  destruct lst as [q n r i]; simpl in *; subst. split.
  - intros [= -> ->]. auto.
  - intros [-> ->]. reflexivity.
Qed.

Lemma key_only_zero : key_only zeroPort.
Proof. split; reflexivity. Qed.

Lemma key_only_mk q n : key_only (mkPort q n EmptyString EmptyString).
Proof. split; reflexivity. Qed.

Lemma key_lt_irrefl a b : same_key a b -> ~ key_lt a b.
Proof.
  intros [Hq Hp] [H|[_ H]]; [lia|].
  rewrite Hq in H. exact (lex_lt_irrefl _ H).
Qed.

Lemma key_lt_le_trans a b c : key_le a b -> key_lt b c -> key_lt a c.
Proof.
  unfold key_le, key_lt, same_key.
  intros [[H1|[E1 H1]]|[Eq Ep]] [H2|[E2 H2]].
  - left; lia.
  - left; lia.
  - left; lia.
  - right. split; [congruence|]. eapply lex_lt_trans; eassumption.
  - left; lia.
  - right. split; [congruence|]. rewrite Eq. assumption.
Qed.

Lemma key_le_total a b : key_le a b \/ key_lt b a.
Proof.
  unfold key_le, key_lt, same_key.
  destruct (N.lt_trichotomy (port a) (port b)) as [?|[E|?]]; [tauto| |tauto].
  pose proof (eq_sym E).
  destruct (lex_lt_trichotomy (Proto a) (Proto b)) as [?|[?|?]]; tauto.
Qed.

Lemma key_lt_chain a b : key_lt a b -> chain_before a b.
Proof. unfold key_lt, chain_before. tauto. Qed.

Lemma key_lt_lessThan a b : key_lt a b -> lessThan a b = true.
Proof. intros H. apply lessThan_chain, key_lt_chain, H. Qed.

Lemma not_after_key_le a b : not_after lessThan a b -> key_le a b.
Proof.
  intros H. destruct (key_le_total a b) as [?|Hlt]; [assumption|].
  apply key_lt_lessThan in Hlt. unfold not_after in H. congruence.
Qed.

Lemma key_le_zero p : key_le zeroPort p.
Proof.
  unfold key_le, key_lt, same_key; simpl.
  destruct (N.eq_dec (port p) 0%N) as [E|E]; [|left; left; lia].
  destruct (Proto p) eqn:Q; [right; auto|].
  left; right. split; [lia|constructor].
Qed.

Lemma key_lt_same_l a a' b : same_key a a' -> key_lt a b -> key_lt a' b.
Proof. unfold same_key, key_lt. intros [-> ->]. tauto. Qed.

Lemma key_le_same_l a a' b : same_key a a' -> key_le a b -> key_le a' b.
Proof. unfold key_le, key_lt, same_key. intros [-> ->]. tauto. Qed.

Lemma same_key_mk p : same_key p (mkPort (Proto p) (port p) EmptyString EmptyString).
Proof. split; reflexivity. Qed.

Lemma same_key_sym a b : same_key a b -> same_key b a.
Proof. intros [? ?]; split; congruence. Qed.

Lemma same_key_trans a b c : same_key a b -> same_key b c -> same_key a c.
Proof. intros [? ?] [? ?]; split; congruence. Qed.

(** Every element the pass keeps has a key strictly after [last]. *)
Lemma dedup_pass_above l : forall lst,
  key_only lst ->
  StronglySorted (not_after lessThan) l -> Forall (key_le lst) l ->
  Forall (key_lt lst) (dedup_pass lst l).
Proof.
  induction l as [|p l IH]; intros lst Hk Hs Hle; simpl; [constructor|].
  apply StronglySorted_inv in Hs as [Hs Hpl].
  apply Forall_cons in Hle as [Hp Hle].
  destruct (Port_eqb lst _) eqn:E.
  - apply IH; assumption.
  - assert (key_lt lst p) as Hlt.
    { destruct Hp as [?|Hsame]; [assumption|].
      apply (Port_eqb_key lst p Hk) in Hsame. congruence. }
    constructor; [exact Hlt|].
    assert (Forall (key_le (mkPort (Proto p) (port p) EmptyString EmptyString)) l) as Hle'.
    { eapply Forall_impl; [exact Hpl|]. intros q Hq; simpl in Hq.
      apply (key_le_same_l p); [apply same_key_mk|]. apply not_after_key_le, Hq. }
    specialize (IH _ (key_only_mk _ _) Hs Hle').
    eapply Forall_impl; [exact IH|]. intros q Hq; simpl in Hq.
    apply (key_lt_le_trans _ p); [left; exact Hlt|].
    apply (key_lt_same_l _ _ _ (same_key_sym _ _ (same_key_mk p))), Hq.
Qed.

(** The keys of the output increase strictly. *)
Lemma dedup_pass_keys l : forall lst,
  key_only lst ->
  StronglySorted (not_after lessThan) l -> Forall (key_le lst) l ->
  StronglySorted key_lt (dedup_pass lst l).
Proof.
  induction l as [|p l IH]; intros lst Hk Hs Hle; simpl; [constructor|].
  apply StronglySorted_inv in Hs as [Hs Hpl].
  apply Forall_cons in Hle as [Hp Hle].
  destruct (Port_eqb lst _) eqn:E.
  - apply IH; assumption.
  - assert (Forall (key_le (mkPort (Proto p) (port p) EmptyString EmptyString)) l) as Hle'.
    { eapply Forall_impl; [exact Hpl|]. intros q Hq; simpl in Hq.
      apply (key_le_same_l p); [apply same_key_mk|]. apply not_after_key_le, Hq. }
    constructor.
    + apply IH; [apply key_only_mk|assumption|assumption].
    + pose proof (dedup_pass_above l _ (key_only_mk _ _) Hs Hle') as Ha.
      eapply Forall_impl; [exact Ha|]. intros q Hq; simpl in Hq.
      apply (key_lt_same_l _ _ _ (same_key_sym _ _ (same_key_mk p))), Hq.
Qed.

(** The pass only drops elements. *)
Lemma dedup_pass_elem l : forall lst q, q ∈ dedup_pass lst l -> q ∈ l.
Proof.
  induction l as [|p l IH]; intros lst q; simpl; [auto|].
  destruct (Port_eqb lst _).
  - intros H. right. eapply IH, H.
  - intros [->|H]%elem_of_cons; [left|right; eapply IH, H].
Qed.

(** Every key of the input other than [last]'s is represented, by the
    first element carrying it. *)
Lemma dedup_pass_first l : forall lst p,
  key_only lst ->
  StronglySorted (not_after lessThan) l ->
  p ∈ l -> ~ same_key lst p ->
  exists q, q ∈ dedup_pass lst l /\ same_key q p /\
            forall r, r ∈ l -> same_key r p -> not_after lessThan q r.
Proof.
  induction l as [|a l IH]; intros lst p Hk Hs Hin Hne; simpl.
  { apply elem_of_nil in Hin. destruct Hin. }
  apply StronglySorted_inv in Hs as [Hs Hal].
  destruct (Port_eqb lst _) eqn:E.
  - apply (Port_eqb_key lst a Hk) in E.
    assert (~ same_key a p) as Hap
      by (intros H; apply Hne; eapply same_key_trans; eassumption).
    apply elem_of_cons in Hin as [->|Hin]; [destruct Hne; exact E|].
    destruct (IH lst p Hk Hs Hin Hne) as (q & Hq & Hqp & Hmin).
    exists q. split; [exact Hq|]. split; [exact Hqp|].
    intros r [->|Hr]%elem_of_cons Hrp; [tauto|auto].
  - destruct (decide (same_key a p)) as [Hap|Hap].
    + exists a. split; [left|]. split; [exact Hap|].
      intros r [->|Hr]%elem_of_cons _; [apply not_after_refl|].
      rewrite Forall_forall in Hal. apply Hal, Hr.
    + apply elem_of_cons in Hin as [->|Hin]; [destruct Hap; split; reflexivity|].
      destruct (IH (mkPort (Proto a) (port a) EmptyString EmptyString) p (key_only_mk _ _) Hs Hin)
        as (q & Hq & Hqp & Hmin).
      { intros H. apply Hap. eapply same_key_trans; [apply same_key_mk|exact H]. }
      exists q. split; [right; exact Hq|]. split; [exact Hqp|].
      intros r [->|Hr]%elem_of_cons Hrp; [tauto|auto].
Qed.

Lemma filter_same_key_none q l :
  Forall (fun r => ~ same_key q r) l -> filter (same_key q) l = [].
Proof.
  induction 1 as [|r l Hr _ IH]; [reflexivity|].
  rewrite filter_cons_False by exact Hr. exact IH.
Qed.

(** In a list of strictly increasing keys a key occurs once. *)
Lemma key_sorted_filter l : forall q,
  StronglySorted key_lt l -> q ∈ l -> filter (same_key q) l = [q].
Proof.
  induction l as [|a l IH]; intros q Hs Hin.
  { apply elem_of_nil in Hin. destruct Hin. }
  apply StronglySorted_inv in Hs as [Hs Hal]. rewrite Forall_forall in Hal.
  rewrite filter_cons. destruct (decide (same_key q a)) as [Hqa|Hqa].
  - assert (q = a) as ->.
    { apply elem_of_cons in Hin as [?|Hin]; [assumption|].
      destruct (key_lt_irrefl a q (same_key_sym _ _ Hqa)). apply Hal, Hin. }
    f_equal. apply filter_same_key_none.
    rewrite Forall_forall. intros r Hr Har.
    exact (key_lt_irrefl _ _ Har (Hal r Hr)).
  - apply IH; [exact Hs|].
    apply elem_of_cons in Hin as [->|Hin]; [|exact Hin].
    destruct Hqa; split; reflexivity.
Qed.

End Dedup.

(** ** [sameInodes] *)

Section SameInodes.

Lemma differs_false x y : differs x y = false <-> same_fields x y.
Proof.
  unfold differs, same_fields.
  rewrite !orb_false_iff, !negb_false_iff, !String.eqb_eq, N.eqb_eq. tauto.
Qed.

Lemma differs_true x y : differs x y = true <-> ~ same_fields x y.
Proof.
  rewrite <- differs_false. destruct (differs x y); split; congruence.
Qed.

Lemma same_fields_refl x : same_fields x x.
Proof. repeat split. Qed.

(** The loop stays inside both slices and answers whether the visited
    indices agree. *)
Lemma sameInodes_loop_spec (a b : List) idx :
  Forall (fun i => i < length a /\ i < length b) idx ->
  exists r, sameInodes_loop a b idx = Some r /\
    (r = true <->
     forall i x y, i ∈ idx -> a !! i = Some x -> b !! i = Some y -> same_fields x y).
Proof.
  induction 1 as [|i idx [Hia Hib] _ (r & Hr & Hiff)]; simpl.
  - exists true. split; [reflexivity|]. split; [|reflexivity].
    intros _ i x y Hi. apply elem_of_nil in Hi. destruct Hi.
  - destruct (lookup_lt_is_Some_2 a i Hia) as [x Hx].
    destruct (lookup_lt_is_Some_2 b i Hib) as [y Hy].
    rewrite Hx, Hy. destruct (differs x y) eqn:E.
    + exists false. split; [reflexivity|]. split; [discriminate|].
      intros Hall. apply differs_true in E. destruct E.
      apply (Hall i x y); [left|assumption|assumption].
    + exists r. split; [exact Hr|]. rewrite Hiff. split.
      * intros Hall j x' y' [->|Hj]%elem_of_cons Hx' Hy'; [|eauto].
        rewrite Hx in Hx'. rewrite Hy in Hy'.
        injection Hx' as <-. injection Hy' as <-. apply differs_false, E.
      * intros Hall j x' y' Hj. apply Hall. right. exact Hj.
Qed.

Lemma sameInodes_spec (a b : List) :
  exists r, sameInodes a b = Some r /\ (r = true <-> Forall2 same_fields a b).
Proof.
  unfold sameInodes. destruct (Nat.eqb (length a) (length b)) eqn:E; simpl.
  - apply Nat.eqb_eq in E.
    destruct (sameInodes_loop_spec a b (seq 0 (length a))) as (r & Hr & Hiff).
    { rewrite Forall_forall. intros i Hi%elem_of_seq. lia. }
    exists r. split; [exact Hr|]. rewrite Hiff, Forall2_same_length_lookup.
    split.
    + intros Hall. split; [exact E|]. intros i x y Hx Hy.
      apply (Hall i x y); [|assumption|assumption].
      apply elem_of_seq. apply lookup_lt_Some in Hx. lia.
    + intros [_ Hall] i x y _. apply Hall.
  - apply Nat.eqb_neq in E. exists false. split; [reflexivity|].
    split; [discriminate|]. intros H%Forall2_length. contradiction.
Qed.

Lemma sameInodes_true (a b : List) :
  sameInodes a b = Some true <-> Forall2 same_fields a b.
Proof.
  destruct (sameInodes_spec a b) as (r & Hr & Hiff). rewrite Hr, <- Hiff.
  split; congruence.
Qed.

Lemma sameInodes_false (a b : List) :
  sameInodes a b = Some false <-> ~ Forall2 same_fields a b.
Proof.
  destruct (sameInodes_spec a b) as (r & Hr & Hiff). rewrite Hr, <- Hiff.
  destruct r; split; congruence.
Qed.

Lemma only_process_same_fields S S' :
  only_process_modified S S' -> Forall2 same_fields S S'.
Proof.
  induction 1 as [|x x' S S' [name ->] _ IH]; constructor; [|exact IH].
  repeat split.
Qed.

Lemma same_fields_sym x y : same_fields x y -> same_fields y x.
Proof. unfold same_fields. intuition congruence. Qed.

Lemma same_fields_trans x y z : same_fields x y -> same_fields y z -> same_fields x z.
Proof. unfold same_fields. intuition congruence. Qed.

Lemma Forall2_same_fields_sym (a b : List) :
  Forall2 same_fields a b -> Forall2 same_fields b a.
Proof. induction 1; constructor; auto using same_fields_sym. Qed.

Lemma Forall2_same_fields_trans (a b c : List) :
  Forall2 same_fields a b -> Forall2 same_fields b c -> Forall2 same_fields a c.
Proof.
  intros H. revert c. induction H as [|x y a b Hxy _ IH]; intros c Hc;
    inversion Hc; subst; constructor; eauto using same_fields_trans.
Qed.

End SameInodes.

(** ** Rendering *)

Section Rendering.

Context `{Fmt}.

Lemma append_cons a s t : String a s +:+ t = String a (s +:+ t).
Proof. reflexivity. Qed.

Lemma append_nil_l t : EmptyString +:+ t = t.
Proof. reflexivity. Qed.

Lemma append_nil_r s : s +:+ EmptyString = s.
Proof.
  induction s as [|a s IH]; [reflexivity|]. rewrite append_cons, IH. reflexivity.
Qed.

Lemma append_assoc s t u : (s +:+ t) +:+ u = s +:+ (t +:+ u).
Proof.
  induction s as [|a s IH]; [reflexivity|].
  rewrite !append_cons, IH. reflexivity.
Qed.

Lemma append_last_nonempty s a : s +:+ String a EmptyString <> EmptyString.
Proof. destruct s; discriminate. Qed.

Lemma TrimRight_end_same s c :
  TrimRight (s +:+ String c EmptyString) c = TrimRight s c.
Proof.
  induction s as [|a s IH].
  - rewrite append_nil_l. simpl. rewrite Ascii.eqb_refl. reflexivity.
  - rewrite append_cons. simpl. rewrite IH. reflexivity.
Qed.

Lemma TrimRight_end_other s a c :
  a <> c -> TrimRight (s +:+ String a EmptyString) c = s +:+ String a EmptyString.
Proof.
  intros Hac. induction s as [|b s IH].
  - rewrite append_nil_l. simpl.
    destruct (Ascii.eqb_spec a c); [contradiction|reflexivity].
  - rewrite append_cons. simpl. rewrite IH.
    destruct (s +:+ String a EmptyString) eqn:E; [|reflexivity].
    destruct (append_last_nonempty _ _ E).
Qed.

Lemma TrimRight_no_trailing s c t : TrimRight s c <> t +:+ String c EmptyString.
Proof.
  revert t. induction s as [|a s IH]; intros t; simpl.
  - apply not_eq_sym, append_last_nonempty.
  - destruct (TrimRight s c) as [|b u] eqn:E.
    + destruct (Ascii.eqb_spec a c) as [->|Hac].
      * apply not_eq_sym, append_last_nonempty.
      * destruct t as [|b t]; [rewrite append_nil_l; congruence|].
        rewrite append_cons. intros [= _ Ht].
        exact (append_last_nonempty _ _ (eq_sym Ht)).
    + destruct t as [|b' t]; [rewrite append_nil_l; congruence|].
      rewrite append_cons. intros [= _ Ht]. exact (IH t Ht).
Qed.

Lemma Fprintf_row_text sb v :
  Fprintf_row sb v = sb +:+ row_text v +:+ String newline EmptyString.
Proof.
  unfold Fprintf_row, row_text. rewrite !append_assoc. reflexivity.
Qed.

(** The builder after the loop: every row followed by a newline. *)
Lemma fold_Fprintf pl : forall sb,
  fold_left Fprintf_row pl sb
  = sb +:+ foldr (fun v acc => row_text v +:+ String newline acc) EmptyString pl.
Proof.
  induction pl as [|v pl IH]; intros sb; simpl.
  - rewrite append_nil_r. reflexivity.
  - rewrite IH, Fprintf_row_text, !append_assoc. reflexivity.
Qed.

Lemma rows_concat v pl :
  foldr (fun v acc => row_text v +:+ String newline acc) EmptyString (v :: pl)
  = String.concat (String newline EmptyString) (map row_text (v :: pl))
    +:+ String newline EmptyString.
Proof.
  revert v. induction pl as [|w pl IH]; intros v.
  - reflexivity.
  - change (foldr _ _ (v :: w :: pl)) with
      (row_text v +:+ String newline
         (foldr (fun v acc => row_text v +:+ String newline acc) EmptyString (w :: pl))).
    rewrite IH.
    change (String.concat _ (map row_text (v :: w :: pl))) with
      (row_text v +:+ String newline EmptyString
         +:+ String.concat (String newline EmptyString) (map row_text (w :: pl))).
    rewrite !append_assoc. reflexivity.
Qed.

Lemma row_text_ends v : exists t, row_text v = t +:+ String dquote EmptyString.
Proof.
  unfold row_text, fmt_sharp_v.
  exists (fmt_s_minus 3 (Proto v) +:+ " " +:+ fmt_d 5 (port v) +:+ " "
            +:+ fmt_s_minus 17 (inode v) +:+ " " +:+ String dquote (quoteBody (Process v))).
  rewrite !append_assoc, append_cons. reflexivity.
Qed.

Lemma rows_concat_ends v pl :
  exists t, String.concat (String newline EmptyString) (map row_text (v :: pl))
            = t +:+ String dquote EmptyString.
Proof.
  revert v. induction pl as [|w pl IH]; intros v.
  - apply row_text_ends.
  - destruct (IH w) as [t Ht].
    exists (row_text v +:+ String newline EmptyString +:+ t).
    change (String.concat _ (map row_text (v :: w :: pl))) with
      (row_text v +:+ String newline EmptyString
         +:+ String.concat (String newline EmptyString) (map row_text (w :: pl))).
    rewrite Ht, !append_assoc. reflexivity.
Qed.

Lemma List_String_concat pl :
  List_String pl = String.concat (String newline EmptyString) (map row_text pl).
Proof.
  unfold List_String. rewrite fold_Fprintf, append_nil_l.
  destruct pl as [|v pl]; [reflexivity|].
  rewrite rows_concat. destruct (rows_concat_ends v pl) as [t ->].
  rewrite TrimRight_end_same. apply TrimRight_end_other. discriminate.
Qed.

Lemma fmt_s_minus_justified w s : left_justified w s (fmt_s_minus w s).
Proof.
  exists (w - RuneCountInString s). split; [reflexivity|lia].
Qed.

Lemma fmt_d_justified w n : right_justified w (decimal n) (fmt_d w n).
Proof.
  exists (w - String.length (decimal n)). split; [reflexivity|lia].
Qed.

Lemma row_text_row_of v : row_of v (row_text v).
Proof.
  exists (fmt_s_minus 3 (Proto v)), (fmt_d 5 (port v)), (fmt_s_minus 17 (inode v)).
  split; [apply fmt_s_minus_justified|].
  split; [apply fmt_d_justified|].
  split; [apply fmt_s_minus_justified|].
  reflexivity.
Qed.

Lemma rows_row_of pl : Forall2 row_of pl (map row_text pl).
Proof. induction pl; constructor; [apply row_text_row_of|assumption]. Qed.

Lemma all_from_spec P count : forall start m,
  all_from P start count = true ->
  (start <= m)%N -> (m < start + N.of_nat count)%N -> P m = true.
Proof.
  induction count as [|count IH]; intros start m Hall Hlo Hhi; [lia|].
  simpl in Hall. apply andb_true_iff in Hall as [Hs Hall].
  destruct (N.eq_dec m start) as [->|Hne]; [exact Hs|].
  apply (IH (N.succ start)); [exact Hall|lia|lia].
Qed.

(** A 16-bit port fills its column exactly: five characters. *)
Lemma port_column_width v :
  uint16_ok v -> String.length (fmt_d 5 (port v)) = 5.
Proof.
  intros Hv. unfold uint16_ok in Hv. apply Nat.eqb_eq.
  apply (all_from_spec (fun n => Nat.eqb (String.length (fmt_d 5 n)) 5)
           (N.to_nat 65536) 0%N).
  - vm_compute. reflexivity.
  - lia.
  - rewrite N2Nat.id. lia.
Qed.

End Rendering.

(** ** The normaliser as a whole *)

Section Normalize.

Lemma StronglySorted_weaken {A} (R R' : A -> A -> Prop) l :
  (forall x y, R x y -> R' x y) -> StronglySorted R l -> StronglySorted R' l.
Proof.
  intros HR. induction 1 as [|x l _ IH Hx]; constructor; [exact IH|].
  eapply Forall_impl; [exact Hx|]. intros y. apply HR.
Qed.

Lemma StronglySorted_lookup_lt {A} (R : A -> A -> Prop) l :
  StronglySorted R l ->
  forall i j x y, i < j -> l !! i = Some x -> l !! j = Some y -> R x y.
Proof.
  induction 1 as [|a l _ IH Ha]; intros i j x y Hij Hx Hy.
  - rewrite lookup_nil in Hx. discriminate.
  - destruct j as [|j]; [lia|]. simpl in Hy. destruct i as [|i]; simpl in Hx.
    + injection Hx as <-. rewrite Forall_forall in Ha.
      apply Ha. eapply list_elem_of_lookup_2, Hy.
    + apply (IH i j); [lia|assumption|assumption].
Qed.

Lemma normalize_keys ps :
  StronglySorted key_lt (dedup_pass zeroPort (sort_Slice ps lessThan)).
Proof.
  apply dedup_pass_keys; [apply key_only_zero|apply sort_Slice_strongly|].
  rewrite Forall_forall. intros p _. apply key_le_zero.
Qed.

Lemma normalize_above ps :
  Forall (key_lt zeroPort) (dedup_pass zeroPort (sort_Slice ps lessThan)).
Proof.
  apply dedup_pass_above; [apply key_only_zero|apply sort_Slice_strongly|].
  rewrite Forall_forall. intros p _. apply key_le_zero.
Qed.

Lemma normalize_lessThan ps :
  StronglySorted (fun a b => lessThan a b = true)
    (dedup_pass zeroPort (sort_Slice ps lessThan)).
Proof.
  eapply StronglySorted_weaken; [|apply normalize_keys].
  intros x y. apply key_lt_lessThan.
Qed.

Lemma not_after_pair_le q r :
  same_key q r -> not_after lessThan q r -> pair_le q r.
Proof.
  intros [Hq Hp] Hna. unfold not_after in Hna.
  assert (~ chain_before r q) as Hc by (rewrite <- lessThan_chain; congruence).
  unfold chain_before in Hc. unfold pair_le, pair_lt.
  pose proof (eq_sym Hq). pose proof (eq_sym Hp).
  destruct (lex_lt_trichotomy (inode q) (inode r)) as [?|[Hi|?]]; [tauto| |tauto].
  pose proof (eq_sym Hi).
  destruct (lex_lt_trichotomy (Process q) (Process r)) as [?|[?|?]]; tauto.
Qed.

Lemma well_formed_not_zero p :
  Proto p = "tcp" \/ Proto p = "udp" -> ~ same_key zeroPort p.
Proof. intros [E|E] [Hq _]; simpl in Hq; rewrite E in Hq; discriminate. Qed.

Lemma key_lt_zero_not_zero q :
  key_lt zeroPort q -> ~ (Proto q = EmptyString /\ port q = 0%N).
Proof.
  intros [Hlt|[_ Hlex]] [Hq Hp]; simpl in *.
  - lia.
  - rewrite Hq in Hlex. inversion Hlex.
Qed.

End Normalize.

(** ** The operations on the example inputs *)

Example sortAndDedup_handoff :
  sortAndDedup handoff_batch
  = Some [ mkPort "tcp" 53 "dns" "sock4"; mkPort "udp" 53 "dns" "sock3";
           mkPort "tcp" 80 EmptyString EmptyString ].
Proof. vm_compute. reflexivity. Qed.

Example sortAndDedup_handoff_permuted :
  sortAndDedup handoff_batch_permuted = sortAndDedup handoff_batch.
Proof. vm_compute. reflexivity. Qed.

Example sortAndDedup_zero_key :
  sortAndDedup [ mkPort "tcp" 0 EmptyString EmptyString;
                 mkPort EmptyString 0 "init" "sock1";
                 mkPort EmptyString 1 EmptyString EmptyString ]
  = Some [ mkPort "tcp" 0 EmptyString EmptyString;
           mkPort EmptyString 1 EmptyString EmptyString ].
Proof. vm_compute. reflexivity. Qed.

Example sameInodes_renamed : sameInodes ssh_snapshot ssh_snapshot_renamed = Some true.
Proof. reflexivity. Qed.

Example sameInodes_rebound : sameInodes ssh_snapshot ssh_snapshot_rebound = Some false.
Proof. reflexivity. Qed.

Example List_String_ssh :
  @List_String ascii_Fmt (ssh_snapshot ++ [mkPort "udp" 65535 EmptyString "socket:[165614651]"])
  = "tcp    22 sockA             " +:+ String dquote ("sshd" +:+ String dquote
      (String newline ("udp 65535 socket:[165614651] " +:+ String dquote
         (String dquote EmptyString)))).
Proof. vm_compute. reflexivity. Qed.

(** * The properties of the specification *)

(** C1.  [lessThan] orders two observations exactly by the tie-break chain
    port, protocol, socket identity, process, each ascending, strings
    compared lexicographically by bytes: ["tcp"] comes before ["udp"] and
    the empty string before every other string.  The output of
    [sortAndDedup] is sorted under [lessThan]: every element is less than
    every later one. *)
Theorem lessThan_tie_break_chain :
  (forall a b, lessThan a b = true <-> chain_before a b) /\
  lex_lt "tcp" "udp" /\
  (forall c s, lex_lt EmptyString (String c s)) /\
  (forall s, ~ lex_lt s EmptyString) /\
  (forall batch, exists out,
      sortAndDedup batch = Some out /\
      StronglySorted (fun a b => lessThan a b = true) out).
Proof.
  split; [exact lessThan_chain|].
  split; [apply lex_lt_head; vm_compute; reflexivity|].
  split; [intros c s; constructor|].
  split; [exact lex_lt_not_empty|].
  intros batch. eexists. split; [apply sortAndDedup_pass|].
  apply normalize_lessThan.
Qed.

(** C2.  In a well-formed batch, every (protocol, port) key that occurs
    is carried by exactly one observation of [sortAndDedup]'s output; that
    observation comes from the batch and has the smallest
    (socketIdentity, process) pair among the observations of the batch
    with that key. *)
Theorem dedup_keeps_smallest (batch : List) (p : Port) :
  well_formed batch -> p ∈ batch ->
  exists out q,
    sortAndDedup batch = Some out /\
    filter (same_key p) out = [q] /\
    q ∈ batch /\
    forall r, r ∈ batch -> same_key r p -> pair_le q r.
Proof.
  intros Hwf Hp. unfold well_formed in Hwf. rewrite Forall_forall in Hwf.
  destruct (dedup_pass_first (sort_Slice batch lessThan) zeroPort p)
    as (q & Hq & Hqp & Hmin).
  { apply key_only_zero. }
  { apply sort_Slice_strongly. }
  { apply sort_Slice_elem, Hp. }
  { apply well_formed_not_zero, Hwf, Hp. }
  exists (dedup_pass zeroPort (sort_Slice batch lessThan)), q.
  split; [apply sortAndDedup_pass|].
  split; [|split].
  - rewrite <- (key_sorted_filter _ q (normalize_keys batch) Hq).
    apply list_filter_iff. intros x. split; intros Hx.
    + eapply same_key_trans; eassumption.
    + eapply same_key_trans; [apply same_key_sym|]; eassumption.
  - apply sort_Slice_elem. eapply dedup_pass_elem, Hq.
  - intros r Hr Hrp. apply not_after_pair_le.
    + eapply same_key_trans; [exact Hqp|apply same_key_sym, Hrp].
    + apply Hmin; [apply sort_Slice_elem, Hr|exact Hrp].
Qed.

Lemma dedup_keeps_smallest_witness :
  exists out q,
    sortAndDedup handoff_batch = Some out /\
    filter (same_key (mkPort "tcp" 80 "nginx" "sock2")) out = [q] /\
    q ∈ handoff_batch /\
    forall r, r ∈ handoff_batch -> same_key r (mkPort "tcp" 80 "nginx" "sock2") ->
              pair_le q r.
Proof.
  apply (dedup_keeps_smallest handoff_batch (mkPort "tcp" 80 "nginx" "sock2")).
  - unfold well_formed, handoff_batch.
    repeat (apply List.Forall_cons; [simpl; auto|]). apply List.Forall_nil.
  - left.
Defined.

(** C3.  [sortAndDedup] does not depend on the order of the batch: two
    batches that are rearrangements of one another give the same output,
    field for field.  It gives an output for every batch, and it does not
    depend on the algorithm inside [sort.Slice] either: any two slices
    that meet the contract of [sort.Slice] for these batches are equal. *)
Theorem normalize_permutation_invariant (batch batch' : List) :
  batch ≡ₚ batch' ->
  sortAndDedup batch = sortAndDedup batch' /\
  (exists out, sortAndDedup batch = Some out) /\
  (forall s s', is_sort_of lessThan batch s -> is_sort_of lessThan batch' s' -> s = s').
Proof.
  intros Hperm. split; [|split].
  - rewrite !sortAndDedup_pass, (sort_Slice_Permutation _ _ Hperm). reflexivity.
  - eexists. apply sortAndDedup_pass.
  - intros s s' Hs Hs'.
    rewrite (sort_Slice_unique _ _ Hs), (sort_Slice_unique _ _ Hs').
    apply sort_Slice_Permutation, Hperm.
Qed.

Lemma normalize_permutation_invariant_witness :
  sortAndDedup handoff_batch = sortAndDedup handoff_batch_permuted /\
  (exists out, sortAndDedup handoff_batch = Some out) /\
  (forall s s', is_sort_of lessThan handoff_batch s ->
                is_sort_of lessThan handoff_batch_permuted s' -> s = s').
Proof.
  apply (normalize_permutation_invariant handoff_batch handoff_batch_permuted).
  unfold handoff_batch, handoff_batch_permuted.
  apply (Permutation_trans (l' :=
    [ mkPort "tcp" 53 "dns" "sock4"; mkPort "tcp" 80 "nginx" "sock2";
      mkPort "udp" 53 "dns" "sock3"; mkPort "tcp" 80 EmptyString EmptyString ])).
  - apply Permutation_sym.
    apply (Permutation_cons_app [_; _; _] [] (mkPort "tcp" 53 "dns" "sock4")).
    reflexivity.
  - constructor.
    apply (Permutation_cons_app [_; _] [] (mkPort "tcp" 80 "nginx" "sock2")).
    simpl. apply Permutation_swap.
Defined.

(** C4.  [sameInodes] always answers, and it answers [true] exactly when
    the two snapshots have the same length and agree at every index on
    protocol, port and socket identity.  The process field has no part in
    the answer: rewriting it anywhere in either snapshot leaves the answer
    as it was. *)
Theorem sameInodes_index_wise (previous current : List) :
  exists r,
    sameInodes previous current = Some r /\
    (r = true <->
     length previous = length current /\
     forall i x y, previous !! i = Some x -> current !! i = Some y ->
       Proto x = Proto y /\ port x = port y /\ inode x = inode y) /\
    (forall previous' current',
       only_process_modified previous previous' ->
       only_process_modified current current' ->
       sameInodes previous' current' = Some r).
Proof.
  destruct (sameInodes_spec previous current) as (r & Hr & Hiff).
  exists r. split; [exact Hr|]. split.
  - rewrite Hiff. apply Forall2_same_length_lookup.
  - intros previous' current' Hp Hc.
    apply only_process_same_fields in Hp, Hc.
    destruct (sameInodes_spec previous' current') as (r' & Hr' & Hiff').
    rewrite Hr'. f_equal.
    assert (Forall2 same_fields previous current
            <-> Forall2 same_fields previous' current') as Heq.
    { split; intros Hpc.
      - eapply Forall2_same_fields_trans; [|exact Hc].
        eapply Forall2_same_fields_trans; [|exact Hpc].
        apply Forall2_same_fields_sym, Hp.
      - eapply Forall2_same_fields_trans; [exact Hp|].
        eapply Forall2_same_fields_trans; [exact Hpc|].
        apply Forall2_same_fields_sym, Hc. }
    rewrite <- Heq, <- Hiff in Hiff'.
    destruct r, r'; try reflexivity.
    + apply Hiff'. reflexivity.
    + symmetry. apply Hiff'. reflexivity.
Qed.

Lemma sameInodes_index_wise_witness :
  exists r,
    sameInodes ssh_snapshot ssh_snapshot_renamed = Some r /\
    (r = true <->
     length ssh_snapshot = length ssh_snapshot_renamed /\
     forall i x y, ssh_snapshot !! i = Some x -> ssh_snapshot_renamed !! i = Some y ->
       Proto x = Proto y /\ port x = port y /\ inode x = inode y) /\
    (forall previous' current',
       only_process_modified ssh_snapshot previous' ->
       only_process_modified ssh_snapshot_renamed current' ->
       sameInodes previous' current' = Some r).
Proof.
  apply (sameInodes_index_wise ssh_snapshot ssh_snapshot_renamed).
Defined.

(** C5.  A snapshot is unchanged against itself; it is unchanged against
    any snapshot obtained from it by rewriting process fields only; and it
    is changed against a snapshot of another length, or one that differs
    from it at some index in protocol, port or socket identity. *)
Theorem change_suppression :
  (forall S, sameInodes S S = Some true) /\
  (forall S S', only_process_modified S S' -> sameInodes S S' = Some true) /\
  (forall S S', length S <> length S' -> sameInodes S S' = Some false) /\
  (forall S S' i x y,
     S !! i = Some x -> S' !! i = Some y ->
     Proto x <> Proto y \/ port x <> port y \/ inode x <> inode y ->
     sameInodes S S' = Some false).
Proof.
  split; [|split; [|split]].
  - intros S. apply sameInodes_true.
    induction S; constructor; [apply same_fields_refl|assumption].
  - intros S S' H. apply sameInodes_true, only_process_same_fields, H.
  - intros S S' Hlen. apply sameInodes_false.
    intros H%Forall2_length. contradiction.
  - intros S S' i x y Hx Hy Hdiff. apply sameInodes_false. intros Hall.
    pose proof (Forall2_lookup_lr _ _ _ _ _ _ Hall Hx Hy) as (? & ? & ?).
    tauto.
Qed.

Lemma change_suppression_witness :
  sameInodes ssh_snapshot ssh_snapshot_renamed = Some true /\
  sameInodes ssh_snapshot [] = Some false /\
  sameInodes ssh_snapshot ssh_snapshot_rebound = Some false.
Proof.
  destruct change_suppression as (_ & Hprocess & Hlength & Hfield).
  split; [|split].
  - apply Hprocess. constructor; [|constructor].
    exists "sshd2"%string. reflexivity.
  - apply Hlength. simpl. lia.
  - apply (Hfield _ _ 0 (mkPort "tcp" 22 "sshd" "sockA") (mkPort "tcp" 22 "sshd" "sockB"));
      [reflexivity|reflexivity|].
    right; right. simpl. discriminate.
Defined.

(** C6.  For a well-formed batch the output of [sortAndDedup] increases
    strictly under [lessThan], each element being less than its successor,
    and no two of its elements have the same (protocol, port) key. *)
Theorem normalize_strictly_increasing (batch : List) :
  well_formed batch ->
  exists out,
    sortAndDedup batch = Some out /\
    (forall i x y, out !! i = Some x -> out !! S i = Some y -> lessThan x y = true) /\
    (forall i j x y, i <> j -> out !! i = Some x -> out !! j = Some y ->
                     ~ same_key x y).
Proof.
  intros _. eexists. split; [apply sortAndDedup_pass|].
  pose proof (StronglySorted_lookup_lt _ _ (normalize_keys batch)) as Hkeys.
  split.
  - intros i x y Hx Hy. apply key_lt_lessThan, (Hkeys i (S i)); [lia|assumption..].
  - intros i j x y Hij Hx Hy Hsame.
    destruct (Nat.lt_total i j) as [Hlt|[?|Hlt]]; [|contradiction|].
    + exact (key_lt_irrefl _ _ Hsame (Hkeys i j x y Hlt Hx Hy)).
    + exact (key_lt_irrefl _ _ (same_key_sym _ _ Hsame) (Hkeys j i y x Hlt Hy Hx)).
Qed.

Lemma normalize_strictly_increasing_witness :
  exists out,
    sortAndDedup handoff_batch = Some out /\
    (forall i x y, out !! i = Some x -> out !! S i = Some y -> lessThan x y = true) /\
    (forall i j x y, i <> j -> out !! i = Some x -> out !! j = Some y ->
                     ~ same_key x y).
Proof.
  apply (normalize_strictly_increasing handoff_batch).
  unfold well_formed, handoff_batch.
  repeat (apply List.Forall_cons; [simpl; auto|]). apply List.Forall_nil.
Defined.

(** C7.  The three operations have a result on every input: neither loop
    of [sortAndDedup] and [sameInodes] reaches an index outside its slice,
    and [String] has no step that can fail.  The empty batch normalises to
    the empty snapshot. *)
Theorem operations_total `{Fmt} :
  (forall batch : List, exists out, sortAndDedup batch = Some out) /\
  (forall previous current : List, exists r, sameInodes previous current = Some r) /\
  (forall snapshot : List,
     List_String snapshot
     = String.concat (String newline EmptyString) (map row_text snapshot)) /\
  sortAndDedup [] = Some [].
Proof.
  split; [|split; [|split]].
  - intros batch. eexists. apply sortAndDedup_pass.
  - intros previous current.
    destruct (sameInodes_spec previous current) as (r & Hr & _). eauto.
  - apply List_String_concat.
  - reflexivity.
Qed.

(** C8.  [String] writes one line per observation, in snapshot order.  A
    line is the protocol left-justified to at least 3 characters, a space,
    the port in decimal right-justified to at least 5 characters, a space,
    the socket identity left-justified to at least 17 characters, a space,
    and the process name between quotes, escaped.  The lines are joined by
    newlines, the text does not end in a newline, and the empty snapshot
    gives the empty text. *)
Theorem render_lines `{Fmt} :
  (forall snapshot : List, exists lines,
     Forall2 row_of snapshot lines /\
     List_String snapshot = String.concat (String newline EmptyString) lines /\
     forall t, List_String snapshot <> t +:+ String newline EmptyString) /\
  List_String [] = EmptyString.
Proof.
  split; [|reflexivity].
  intros snapshot. exists (map row_text snapshot).
  split; [apply rows_row_of|]. split; [apply List_String_concat|].
  intros t. apply TrimRight_no_trailing.
Qed.

(** C9.  No observation with the empty protocol and port 0 is ever in the
    output of [sortAndDedup], not even when it is the only observation of
    the batch, or the first one with that key: [last] starts as the zero
    [Port], whose key the pass therefore takes as seen already. *)
Theorem zero_key_never_output :
  (forall batch, exists out,
     sortAndDedup batch = Some out /\
     Forall (fun q => ~ (Proto q = EmptyString /\ port q = 0%N)) out) /\
  (forall name ident, sortAndDedup [mkPort EmptyString 0 name ident] = Some []).
Proof.
  split.
  - intros batch. eexists. split; [apply sortAndDedup_pass|].
    eapply Forall_impl; [apply normalize_above|].
    intros q. apply key_lt_zero_not_zero.
  - intros name ident. rewrite sortAndDedup_pass. reflexivity.
Qed.

(** C10.  [lessThan] is a strict total order on observations: nothing is
    less than itself, the relation is transitive, and two observations
    neither of which is less than the other are equal in all four fields. *)
Theorem lessThan_strict_total_order :
  (forall a, lessThan a a = false) /\
  (forall a b c, lessThan a b = true -> lessThan b c = true -> lessThan a c = true) /\
  (forall a b, lessThan a b = false -> lessThan b a = false -> a = b).
Proof.
  split; [exact lessThan_irrefl|].
  split; [exact lessThan_trans|exact lessThan_total].
Qed.

Lemma lessThan_strict_total_order_witness :
  lessThan (mkPort "tcp" 22 "sshd" "sockA") (mkPort "tcp" 80 EmptyString EmptyString) = true /\
  mkPort "udp" 53 "dns" "sock3" = mkPort "udp" 53 "dns" "sock3".
Proof.
  destruct lessThan_strict_total_order as (_ & Htrans & Htotal).
  split.
  - apply (Htrans _ (mkPort "udp" 53 "dns" "sock3")); reflexivity.
  - apply Htotal; reflexivity.
Defined.

(** * Further properties of the code *)

(** ** The normaliser *)

Section Canonical.

Lemma zero_key_same p : zero_key p <-> same_key zeroPort p.
Proof. unfold zero_key, same_key; simpl. split; intros [? ?]; split; congruence. Qed.

Lemma key_lt_zero_nonzero q : key_lt zeroPort q -> ~ zero_key q.
Proof. apply key_lt_zero_not_zero. Qed.

Lemma pair_le_antisym a b :
  pair_le a b -> pair_le b a -> inode a = inode b /\ Process a = Process b.
Proof.
  unfold pair_le, pair_lt. destruct a as [q1 n1 r1 i1], b as [q2 n2 r2 i2]; simpl.
  intros [[H1|[E1 H1]]|[E1 F1]] [[H2|[E2 H2]]|[E2 F2]]; subst;
    repeat match goal with
    | H : lex_lt ?x ?x |- _ => destruct (lex_lt_irrefl _ H)
    | H : lex_lt ?x ?y, H' : lex_lt ?y ?x |- _ => destruct (lex_lt_asym _ _ H H')
    end; split; reflexivity.
Qed.

Lemma pair_le_refl a : pair_le a a.
Proof. right. split; reflexivity. Qed.

Lemma Port_fields_eq a b :
  same_key a b -> inode a = inode b -> Process a = Process b -> a = b.
Proof.
  destruct a, b; unfold same_key; simpl. intros [-> ->] -> ->. reflexivity.
Qed.

Lemma key_sorted_same_key l x y :
  StronglySorted key_lt l -> x ∈ l -> y ∈ l -> same_key x y -> x = y.
Proof.
  intros Hs Hx Hy Hxy.
  assert (y ∈ filter (same_key x) l) as Hf by (apply list_elem_of_filter; auto).
  rewrite (key_sorted_filter l x Hs Hx) in Hf.
  apply list_elem_of_singleton in Hf. congruence.
Qed.

#[local] Instance lessThan_antisym : AntiSymm (=) (fun a b => lessThan a b = true).
Proof.
  intros a b Hab Hba. rewrite (lessThan_asym _ _ Hab) in Hba. discriminate.
Qed.

Lemma lessThan_sorted_NoDup l :
  StronglySorted (fun a b => lessThan a b = true) l -> NoDup l.
Proof.
  induction 1 as [|a l _ IH Ha]; constructor; [|exact IH].
  intros Hin. rewrite Forall_forall in Ha. specialize (Ha a Hin).
  rewrite lessThan_irrefl in Ha. discriminate.
Qed.

(** Two lists that increase strictly under [lessThan] and have the same
    elements are the same list. *)
Lemma lessThan_sorted_ext l1 l2 :
  StronglySorted (fun a b => lessThan a b = true) l1 ->
  StronglySorted (fun a b => lessThan a b = true) l2 ->
  (forall x, x ∈ l1 <-> x ∈ l2) -> l1 = l2.
Proof.
  intros H1 H2 Hext.
  apply (StronglySorted_unique (fun a b => lessThan a b = true)); [assumption..|].
  apply NoDup_Permutation; auto using lessThan_sorted_NoDup.
Qed.

Lemma canonical_distinct_keys batch out x y :
  canonical_for batch out -> x ∈ out -> y ∈ out -> same_key x y -> x = y.
Proof.
  intros (_ & Hmin & _) Hx Hy Hxy.
  destruct (Hmin x Hx) as (Hxb & _ & Hxmin).
  destruct (Hmin y Hy) as (Hyb & _ & Hymin).
  destruct (pair_le_antisym x y) as [Hi Hp].
  - apply Hxmin; [exact Hyb|apply same_key_sym, Hxy].
  - apply Hymin; [exact Hxb|exact Hxy].
  - apply Port_fields_eq; assumption.
Qed.

Lemma canonical_unique batch out out' :
  canonical_for batch out -> canonical_for batch out' -> out = out'.
Proof.
  assert (forall o o', canonical_for batch o -> canonical_for batch o' ->
                       forall x, x ∈ o -> x ∈ o') as Hincl.
  { intros o o' (_ & Hmin & _) (_ & Hmin' & Hcov') x Hx.
    destruct (Hmin x Hx) as (Hxb & Hnz & Hxmin).
    destruct (Hcov' x Hxb Hnz) as (q & Hq & Hqx).
    destruct (Hmin' q Hq) as (Hqb & _ & Hqmin).
    destruct (pair_le_antisym x q) as [Hi Hp].
    - apply Hxmin; [exact Hqb|exact Hqx].
    - apply Hqmin; [exact Hxb|apply same_key_sym, Hqx].
    - rewrite (Port_fields_eq x q (same_key_sym _ _ Hqx) Hi Hp). exact Hq. }
  intros Hc Hc'. apply lessThan_sorted_ext; [apply Hc|apply Hc'|].
  intros x. split; eauto.
Qed.

Lemma sortAndDedup_canonical batch :
  canonical_for batch (dedup_pass zeroPort (sort_Slice batch lessThan)).
Proof.
  split; [apply normalize_lessThan|]. split.
  - intros q Hq.
    assert (~ zero_key q) as Hnz.
    { pose proof (normalize_above batch) as Ha. rewrite Forall_forall in Ha.
      apply key_lt_zero_nonzero, Ha, Hq. }
    assert (q ∈ sort_Slice batch lessThan) as Hqs by (eapply dedup_pass_elem, Hq).
    split; [apply sort_Slice_elem, Hqs|]. split; [exact Hnz|].
    destruct (dedup_pass_first (sort_Slice batch lessThan) zeroPort q)
      as (q' & Hq' & Hsame & Hmin);
      [apply key_only_zero|apply sort_Slice_strongly|exact Hqs| |].
    { rewrite <- zero_key_same. exact Hnz. }
    assert (q' = q) as -> by
      (eapply key_sorted_same_key; [apply normalize_keys|eassumption..]).
    intros r Hr Hrq. apply not_after_pair_le; [apply same_key_sym, Hrq|].
    apply Hmin; [apply sort_Slice_elem, Hr|exact Hrq].
  - intros p Hp Hnz.
    destruct (dedup_pass_first (sort_Slice batch lessThan) zeroPort p)
      as (q & Hq & Hsame & _);
      [apply key_only_zero|apply sort_Slice_strongly|apply sort_Slice_elem, Hp| |].
    { rewrite <- zero_key_same. exact Hnz. }
    eauto.
Qed.

Lemma sortAndDedup_iff batch out :
  sortAndDedup batch = Some out <-> canonical_for batch out.
Proof.
  rewrite sortAndDedup_pass. split.
  - intros [= <-]. apply sortAndDedup_canonical.
  - intros Hc. f_equal. eapply canonical_unique; [apply sortAndDedup_canonical|exact Hc].
Qed.

Lemma dedup_pass_sublist l : forall lst, dedup_pass lst l `sublist_of` l.
Proof.
  induction l as [|p l IH]; intros lst; simpl; [constructor|].
  destruct (Port_eqb lst _); [apply sublist_cons|apply sublist_skip]; apply IH.
Qed.

End Canonical.

Section InPlaceSlice.

(** The loop writes below [out_len] only: from there on the array is as
    the sort left it. *)
Lemma dedup_loop_tail rest : forall arr n lst i st,
  length arr = i + length rest -> drop i arr = rest -> n <= i ->
  dedup_loop (mkState arr n lst) (seq i (length rest)) = Some st ->
  length (backing st) = length arr /\
  n <= out_len st /\ out_len st <= i + length rest /\
  drop (out_len st) (backing st) = drop (out_len st) arr.
Proof.
  induction rest as [|p rest IH]; intros arr n lst i st Hlen Hdrop Hn; simpl.
  - intros [= <-]. simpl. repeat split; lia.
  - assert (arr !! i = Some p) as Hi.
    { rewrite <- (Nat.add_0_r i), <- lookup_drop, Hdrop. reflexivity. }
    assert (drop (S i) arr = rest) as Hdrop'.
    { rewrite (drop_S _ _ _ Hi) in Hdrop. congruence. }
    unfold dedup_body; simpl. rewrite Hi. simpl in Hlen.
    destruct (Port_eqb lst (mkPort (Proto p) (port p) EmptyString EmptyString)).
    + intros Hst.
      destruct (IH arr n lst (S i) st) as (H1 & H2 & H3 & H4);
        [lia|exact Hdrop'|lia|exact Hst|].
      repeat split; [exact H1|exact H2|lia|exact H4].
    + destruct (decide (n < length arr)) as [Hlt|Hge]; [|lia].
      intros Hst.
      destruct (IH (<[n:=p]> arr) (S n)
                  (mkPort (Proto p) (port p) EmptyString EmptyString) (S i) st)
        as (H1 & H2 & H3 & H4).
      * rewrite length_insert. lia.
      * rewrite drop_insert_lt by lia. exact Hdrop'.
      * lia.
      * exact Hst.
      * rewrite length_insert in H1. rewrite drop_insert_lt in H4 by lia.
        repeat split; [exact H1|lia|lia|exact H4].
Qed.

End InPlaceSlice.

Section Erase.

Lemma erase_same_key p : same_key (erase_Process p) p.
Proof. split; reflexivity. Qed.

Lemma erase_key_lt a b : key_lt a b -> key_lt (erase_Process a) (erase_Process b).
Proof. unfold key_lt; simpl. tauto. Qed.

Lemma erase_pair_le a b : pair_le a b -> pair_le (erase_Process a) (erase_Process b).
Proof.
  unfold pair_le, pair_lt; simpl. intros [[H|[H _]]|[H _]]; [left; left; exact H|right..];
    split; auto.
Qed.

Lemma erase_zero_key p : zero_key (erase_Process p) <-> zero_key p.
Proof. reflexivity. Qed.

Lemma only_process_modified_erase (S S' : List) :
  only_process_modified S S' -> erase_Process <$> S = erase_Process <$> S'.
Proof.
  induction 1 as [|x x' S S' [name ->] _ IH]; [reflexivity|].
  rewrite !fmap_cons, IH. reflexivity.
Qed.

Lemma erase_same_fields (a b : List) :
  erase_Process <$> a = erase_Process <$> b -> Forall2 same_fields a b.
Proof.
  revert b. induction a as [|x a IH]; intros [|y b] Heq; try discriminate.
  - constructor.
  - rewrite !fmap_cons in Heq. injection Heq as Hq Hp Hi Hab.
    constructor; [repeat split; assumption|apply IH, Hab].
Qed.

(** Normalising commutes with blanking the process names. *)
Lemma sortAndDedup_erase batch out :
  sortAndDedup batch = Some out ->
  sortAndDedup (erase_Process <$> batch) = Some (erase_Process <$> out).
Proof.
  intros Hout. pose proof Hout as Hc. apply sortAndDedup_iff in Hc.
  rewrite sortAndDedup_pass in Hout. injection Hout as <-.
  destruct Hc as (_ & Hmin & Hcov).
  apply sortAndDedup_iff. split; [|split].
  - eapply StronglySorted_weaken; [intros x y; apply key_lt_lessThan|].
    apply (StronglySorted_fmap erase_Process key_lt key_lt);
      [intros x y; apply erase_key_lt|apply normalize_keys].
  - intros q' (q & -> & Hq)%list_elem_of_fmap.
    destruct (Hmin q Hq) as (Hqb & Hnz & Hqmin).
    split; [apply list_elem_of_fmap; eauto|]. split; [exact Hnz|].
    intros r' (r & -> & Hr)%list_elem_of_fmap Hsame.
    apply erase_pair_le, Hqmin; [exact Hr|exact Hsame].
  - intros p' (p & -> & Hp)%list_elem_of_fmap Hnz.
    destruct (Hcov p Hp Hnz) as (q & Hq & Hsame).
    exists (erase_Process q). split; [apply list_elem_of_fmap; eauto|exact Hsame].
Qed.

End Erase.

(** X1.  Normalising is idempotent: [sortAndDedup] applied to one of its
    own outputs returns that output unchanged. *)
Theorem sortAndDedup_idempotent (batch out : List) :
  sortAndDedup batch = Some out -> sortAndDedup out = Some out.
Proof.
  intros Hout. pose proof Hout as Hc. apply sortAndDedup_iff in Hc.
  apply sortAndDedup_iff. destruct Hc as (Hs & Hmin & _).
  split; [exact Hs|]. split.
  - intros q Hq. split; [exact Hq|]. split; [apply (Hmin q Hq)|].
    intros r Hr Hrq.
    rewrite (canonical_distinct_keys batch out r q); auto using pair_le_refl.
    apply sortAndDedup_iff, Hout.
  - intros p Hp _. exists p. split; [exact Hp|split; reflexivity].
Qed.

Lemma sortAndDedup_idempotent_witness :
  sortAndDedup [ mkPort "tcp" 53 "dns" "sock4"; mkPort "udp" 53 "dns" "sock3";
                 mkPort "tcp" 80 EmptyString EmptyString ]
  = Some [ mkPort "tcp" 53 "dns" "sock4"; mkPort "udp" 53 "dns" "sock3";
           mkPort "tcp" 80 EmptyString EmptyString ].
Proof.
  apply (sortAndDedup_idempotent handoff_batch). vm_compute. reflexivity.
Defined.

(** X2.  [sortAndDedup] only drops observations: its output is a
    sub-multiset of the batch, so it invents nothing, repeats nothing the
    batch did not repeat, and is no longer than the batch. *)
Theorem sortAndDedup_submseteq (batch : List) :
  exists out, sortAndDedup batch = Some out /\
              out ⊆+ batch /\ length out <= length batch.
Proof.
  eexists. split; [apply sortAndDedup_pass|].
  assert (dedup_pass zeroPort (sort_Slice batch lessThan) ⊆+ batch) as Hsub.
  { rewrite (sort_Slice_perm lessThan batch) at 2.
    apply sublist_submseteq, dedup_pass_sublist. }
  split; [exact Hsub|apply submseteq_length, Hsub].
Qed.

(** X3.  After the call the caller's slice keeps its length and holds the
    output followed by the tail of the sorted order from that position
    on: the array is overwritten in place, and the observations the
    output pushed aside are no longer all in it. *)
Theorem sortAndDedup_clobbers_argument (ps : List) :
  exists out slice,
    sortAndDedup ps = Some out /\
    sortAndDedup_slice ps = Some slice /\
    slice = out ++ drop (length out) (sort_Slice ps lessThan) /\
    length slice = length ps.
Proof.
  unfold sortAndDedup, sortAndDedup_slice.
  destruct (dedup_loop_pass (sort_Slice ps lessThan) (sort_Slice ps lessThan) 0 zeroPort 0)
    as (st & Hst & _); [reflexivity|reflexivity|lia|].
  destruct (dedup_loop_tail (sort_Slice ps lessThan) (sort_Slice ps lessThan)
              0 zeroPort 0 st) as (Hlen & _ & Hle & Htail);
    [reflexivity|reflexivity|lia|exact Hst|].
  rewrite Hst. do 2 eexists. split; [reflexivity|]. split; [reflexivity|].
  simpl in Hle. split.
  - rewrite length_take, Hlen, Nat.min_l by lia.
    rewrite <- Htail. symmetry. apply take_drop.
  - rewrite Hlen. symmetry. apply Permutation_length, sort_Slice_perm.
Qed.

(** X4.  The output of [sortAndDedup] is characterised by what it holds:
    [out] is the output for [batch] exactly when it increases strictly
    under [lessThan], each of its observations comes from the batch, has
    another key than the zero key and the least (socketIdentity, process)
    pair of its key in the batch, and every key of the batch but the zero
    key has an observation in it. *)
Theorem sortAndDedup_characterised (batch out : List) :
  sortAndDedup batch = Some out <-> canonical_for batch out.
Proof. apply sortAndDedup_iff. Qed.

(** X5.  [sameInodes] is symmetric and transitive: with C5's reflexivity,
    "unchanged" is an equivalence on snapshots. *)
Theorem sameInodes_equivalence :
  (forall a b : List, sameInodes a b = sameInodes b a) /\
  (forall a b c : List,
     sameInodes a b = Some true -> sameInodes b c = Some true ->
     sameInodes a c = Some true).
Proof.
  split.
  - intros a b.
    destruct (sameInodes_spec a b) as (r & Hr & Hiff).
    destruct (sameInodes_spec b a) as (r' & Hr' & Hiff').
    rewrite Hr, Hr'. f_equal.
    assert (r = true <-> r' = true) as Heq.
    { rewrite Hiff, Hiff'. split; apply Forall2_same_fields_sym. }
    destruct r, r'; try reflexivity.
    + symmetry. apply Heq. reflexivity.
    + apply Heq. reflexivity.
  - intros a b c. rewrite !sameInodes_true. apply Forall2_same_fields_trans.
Qed.

Lemma sameInodes_equivalence_witness :
  sameInodes ssh_snapshot_rebound ssh_snapshot = sameInodes ssh_snapshot ssh_snapshot_rebound /\
  sameInodes ssh_snapshot_renamed ssh_snapshot_renamed = Some true.
Proof.
  destruct sameInodes_equivalence as (Hsym & Htrans). split.
  - apply Hsym.
  - apply (Htrans _ ssh_snapshot); reflexivity.
Defined.

(** X6.  A port within the 16-bit range fills the port column exactly:
    its decimal form has at most five digits, and the padded column is
    five characters wide, so the columns after it line up. *)
Theorem port_column_exact (v : Port) :
  uint16_ok v ->
  String.length (decimal (port v)) <= 5 /\
  String.length (fmt_d 5 (port v)) = 5.
Proof.
  intros Hv. pose proof (port_column_width v Hv) as Hw.
  split; [|exact Hw].
  destruct (fmt_d_justified 5 (port v)) as (k & Hk & Hmax).
  rewrite Hk in Hw.
  assert (forall s t, String.length (s +:+ t) = String.length s + String.length t) as Happ.
  { intros s t. induction s as [|a s IH]; [reflexivity|].
    rewrite append_cons. simpl. rewrite IH. reflexivity. }
  rewrite Happ in Hw. lia.
Qed.

Lemma port_column_exact_witness :
  String.length (decimal (port (mkPort "udp" 65535 "dns" "sock3"))) <= 5 /\
  String.length (fmt_d 5 (port (mkPort "udp" 65535 "dns" "sock3"))) = 5.
Proof.
  apply (port_column_exact (mkPort "udp" 65535 "dns" "sock3")).
  unfold uint16_ok. simpl. lia.
Defined.

(** X7.  An observation whose key is already represented in the output by
    an observation with a (socketIdentity, process) pair no larger than
    its own changes nothing: adding it to the batch gives the same
    output. *)
Theorem sortAndDedup_absorbs (batch out : List) (q r : Port) :
  sortAndDedup batch = Some out ->
  q ∈ out -> same_key q r -> pair_le q r ->
  sortAndDedup (r :: batch) = Some out.
Proof.
  intros Hout Hq Hqr Hle. pose proof Hout as Hc. apply sortAndDedup_iff in Hc.
  apply sortAndDedup_iff. destruct Hc as (Hs & Hmin & Hcov).
  split; [exact Hs|]. split.
  - intros x Hx. destruct (Hmin x Hx) as (Hxb & Hnz & Hxmin).
    split; [right; exact Hxb|]. split; [exact Hnz|].
    intros y [->|Hy]%elem_of_cons Hyx; [|auto].
    assert (q = x) as <-; [|exact Hle].
    eapply (canonical_distinct_keys batch out);
      [apply sortAndDedup_iff, Hout|exact Hq|exact Hx|].
    eapply same_key_trans; eassumption.
  - intros p [->|Hp]%elem_of_cons Hnz; [eauto|auto].
Qed.

Lemma sortAndDedup_absorbs_witness :
  sortAndDedup (mkPort "tcp" 80 "nginx" "sock9" :: handoff_batch)
  = Some [ mkPort "tcp" 53 "dns" "sock4"; mkPort "udp" 53 "dns" "sock3";
           mkPort "tcp" 80 EmptyString EmptyString ].
Proof.
  apply (sortAndDedup_absorbs handoff_batch _ (mkPort "tcp" 80 EmptyString EmptyString)).
  - vm_compute. reflexivity.
  - right; right; left.
  - split; reflexivity.
  - left; left. constructor.
Defined.

(** X8.  Observations with the zero key (empty protocol, port 0) are
    invisible to [sortAndDedup]: removing them from the batch does not
    change the output. *)
Theorem sortAndDedup_ignores_zero_key (batch : List) :
  sortAndDedup (filter (fun p => ~ zero_key p) batch) = sortAndDedup batch.
Proof.
  destruct (sortAndDedup batch) as [out|] eqn:Hout;
    [|rewrite sortAndDedup_pass in Hout; discriminate].
  apply sortAndDedup_iff in Hout. apply sortAndDedup_iff.
  destruct Hout as (Hs & Hmin & Hcov). split; [exact Hs|]. split.
  - intros q Hq. destruct (Hmin q Hq) as (Hqb & Hnz & Hqmin).
    split; [apply list_elem_of_filter; auto|]. split; [exact Hnz|].
    intros r (_ & Hr)%list_elem_of_filter. auto.
  - intros p (_ & Hp)%list_elem_of_filter. auto.
Qed.

(** X9.  Process names in the raw batch never register as a change: if
    two batches differ only in process fields, their normalised snapshots
    are unchanged against each other under [sameInodes]. *)
Theorem process_churn_is_unchanged (batch batch' out out' : List) :
  only_process_modified batch batch' ->
  sortAndDedup batch = Some out -> sortAndDedup batch' = Some out' ->
  sameInodes out out' = Some true.
Proof.
  intros Hmod Hout Hout'.
  apply sortAndDedup_erase in Hout, Hout'.
  rewrite (only_process_modified_erase _ _ Hmod) in Hout.
  rewrite Hout in Hout'. injection Hout' as Heq.
  apply sameInodes_true, erase_same_fields, Heq.
Qed.

Lemma process_churn_is_unchanged_witness :
  sameInodes
    [ mkPort "tcp" 53 "dns" "sock4"; mkPort "udp" 53 "dns" "sock3";
      mkPort "tcp" 80 EmptyString EmptyString ]
    [ mkPort "tcp" 53 "named" "sock4"; mkPort "udp" 53 "dns" "sock3";
      mkPort "tcp" 80 "httpd" EmptyString ]
  = Some true.
Proof.
  apply (process_churn_is_unchanged handoff_batch
           [ mkPort "tcp" 80 "nginx" "sock2"; mkPort "udp" 53 "dns" "sock3";
             mkPort "tcp" 80 "httpd" EmptyString; mkPort "tcp" 53 "named" "sock4" ]).
  - unfold only_process_modified, handoff_batch.
    repeat (apply List.Forall2_cons; [eexists; reflexivity|]). apply List.Forall2_nil.
  - vm_compute. reflexivity.
  - vm_compute. reflexivity.
Defined.

(** ** Byte strings *)

Section Bytes.

Lemma length_append s t :
  String.length (s +:+ t) = String.length s + String.length t.
Proof.
  induction s as [|a s IH]; [reflexivity|].
  rewrite append_cons. simpl. rewrite IH. reflexivity.
Qed.

Lemma slice_to_from n s : slice_to n s +:+ slice_from n s = s.
Proof.
  revert s. induction n as [|n IH]; intros [|a s]; try reflexivity.
  simpl. rewrite append_cons, IH. reflexivity.
Qed.

Lemma slice_to_length n s : String.length (slice_to n s) <= n.
Proof.
  revert s. induction n as [|n IH]; intros [|a s]; simpl; try lia.
  specialize (IH s). lia.
Qed.

Lemma slice_to_app k r : slice_to (String.length k) (k +:+ r) = k.
Proof.
  induction k as [|a k IH]; [destruct r; reflexivity|].
  rewrite append_cons. simpl. rewrite IH. reflexivity.
Qed.

Lemma slice_from_app k r : slice_from (String.length k) (k +:+ r) = r.
Proof.
  induction k as [|a k IH]; [destruct r; reflexivity|].
  rewrite append_cons. simpl. exact IH.
Qed.

Lemma slice_from_app_1 k c r :
  slice_from (String.length k + 1) (k +:+ String c r) = r.
Proof.
  induction k as [|a k IH]; [reflexivity|].
  rewrite append_cons. simpl. exact IH.
Qed.

Lemma IndexByte_app k c r :
  IndexByte k c = None -> IndexByte (k +:+ String c r) c = Some (String.length k).
Proof.
  induction k as [|a k IH].
  - intros _. rewrite append_nil_l. simpl. rewrite Ascii.eqb_refl. reflexivity.
  - rewrite append_cons. simpl. destruct (Ascii.eqb a c); [discriminate|].
    destruct (IndexByte k c); [discriminate|]. intros _. rewrite IH by reflexivity.
    reflexivity.
Qed.

Lemma IndexByte_Some s c : forall n,
  IndexByte s c = Some n ->
  s = slice_to n s +:+ String c (slice_from (n + 1) s) /\
  IndexByte (slice_to n s) c = None.
Proof.
  induction s as [|a s IH]; intros n; simpl; [discriminate|].
  destruct (Ascii.eqb_spec a c) as [->|Hne].
  - intros [= <-]. split; reflexivity.
  - destruct (IndexByte s c) as [m|] eqn:E; [|discriminate].
    intros [= <-]. destruct (IH m eq_refl) as [Hs Hk]. simpl. split.
    + rewrite append_cons. f_equal. exact Hs.
    + destruct (Ascii.eqb_spec a c); [contradiction|]. rewrite Hk. reflexivity.
Qed.

Lemma all_bytes_app P s t :
  all_bytes P (s +:+ t) = all_bytes P s && all_bytes P t.
Proof.
  induction s as [|a s IH]; [reflexivity|].
  rewrite append_cons. simpl. rewrite IH, andb_assoc. reflexivity.
Qed.

Lemma ends_in_cons cs a s : s <> EmptyString -> ends_in cs (String a s) = ends_in cs s.
Proof. destruct s; [congruence|reflexivity]. Qed.

Lemma ends_in_app cs l v : v <> EmptyString -> ends_in cs (l +:+ v) = ends_in cs v.
Proof.
  intros Hv. induction l as [|a l IH]; [reflexivity|].
  rewrite append_cons, ends_in_cons; [exact IH|].
  destruct l, v; try discriminate; congruence.
Qed.

Lemma ends_in_all cs s :
  s <> EmptyString -> all_bytes (in_cutset cs) s = true -> ends_in cs s = true.
Proof.
  induction s as [|a s IH]; [congruence|]. intros _. simpl.
  intros [Ha Hs]%andb_true_iff. destruct s as [|b s]; [exact Ha|].
  apply IH; [discriminate|exact Hs].
Qed.

(** *** [trimRightASCII] *)

Lemma trimRight_all cs s :
  all_bytes (in_cutset cs) s = true -> trimRightASCII s cs = EmptyString.
Proof.
  induction s as [|a s IH]; [reflexivity|]. simpl.
  intros [Ha Hs]%andb_true_iff. rewrite IH, Ha by exact Hs. reflexivity.
Qed.

Lemma trimRight_empty cs s :
  trimRightASCII s cs = EmptyString -> all_bytes (in_cutset cs) s = true.
Proof.
  induction s as [|a s IH]; [reflexivity|]. simpl.
  destruct (trimRightASCII s cs); [|discriminate].
  destruct (in_cutset cs a); [|discriminate]. intros _. apply IH. reflexivity.
Qed.

Lemma trimRight_bare cs s : ends_in cs s = false -> trimRightASCII s cs = s.
Proof.
  induction s as [|a s IH]; [reflexivity|].
  destruct s as [|b s].
  - simpl. intros ->. reflexivity.
  - intros He. rewrite ends_in_cons in He by discriminate.
    specialize (IH He). simpl in *. rewrite IH. reflexivity.
Qed.

Lemma trimRight_app_all cs s r :
  all_bytes (in_cutset cs) r = true ->
  trimRightASCII (s +:+ r) cs = trimRightASCII s cs.
Proof.
  intros Hr. induction s as [|a s IH].
  - rewrite append_nil_l. simpl. apply trimRight_all, Hr.
  - rewrite append_cons. simpl. rewrite IH. reflexivity.
Qed.

Lemma trimRight_ends cs s : ends_in cs (trimRightASCII s cs) = false.
Proof.
  induction s as [|a s IH]; [reflexivity|]. simpl.
  destruct (trimRightASCII s cs) as [|b t] eqn:E.
  - destruct (in_cutset cs a) eqn:Ha; [reflexivity|]. simpl. exact Ha.
  - rewrite ends_in_cons by discriminate. exact IH.
Qed.

(** *** [trimLeftASCII] *)

Lemma trimLeft_bare cs s : starts_in cs s = false -> trimLeftASCII s cs = s.
Proof. destruct s as [|a s]; [reflexivity|]. simpl. intros ->. reflexivity. Qed.

Lemma trimLeft_app_all cs l s :
  all_bytes (in_cutset cs) l = true ->
  trimLeftASCII (l +:+ s) cs = trimLeftASCII s cs.
Proof.
  induction l as [|a l IH]; [reflexivity|]. intros Hall. simpl in Hall.
  apply andb_true_iff in Hall as [Ha Hl]. rewrite append_cons. simpl.
  rewrite Ha. auto.
Qed.

Lemma trimLeft_starts cs s : starts_in cs (trimLeftASCII s cs) = false.
Proof.
  induction s as [|a s IH]; [reflexivity|]. simpl.
  destruct (in_cutset cs a) eqn:Ha; [exact IH|]. simpl. exact Ha.
Qed.

Lemma trimLeft_ends cs s : ends_in cs s = false -> ends_in cs (trimLeftASCII s cs) = false.
Proof.
  induction s as [|a s IH]; [reflexivity|]. intros He. simpl.
  destruct (in_cutset cs a) eqn:Ha; [|exact He].
  destruct s as [|b s]; [reflexivity|].
  apply IH. rewrite ends_in_cons in He by discriminate. exact He.
Qed.

Lemma trimLeft_empty cs s :
  trimLeftASCII s cs = EmptyString -> all_bytes (in_cutset cs) s = true.
Proof.
  induction s as [|a s IH]; [reflexivity|]. simpl.
  destruct (in_cutset cs a); [exact IH|discriminate].
Qed.

(** *** [Trim] *)

Lemma Trim_bare_ends cs s :
  starts_in cs (Trim s cs) = false /\ ends_in cs (Trim s cs) = false.
Proof.
  unfold Trim. split; [apply trimLeft_starts|apply trimLeft_ends, trimRight_ends].
Qed.

Lemma Trim_empty_iff cs s :
  Trim s cs = EmptyString <-> all_bytes (in_cutset cs) s = true.
Proof.
  unfold Trim. split.
  - intros H. apply trimLeft_empty in H.
    destruct (trimRightASCII s cs) as [|a t] eqn:E; [apply trimRight_empty, E|].
    pose proof (trimRight_ends cs s) as He. rewrite E in He.
    rewrite ends_in_all in He; [discriminate|discriminate|exact H].
  - intros H. rewrite trimRight_all by exact H. reflexivity.
Qed.

(** Whatever cutset bytes surround a string that has none at its ends,
    [Trim] gives the string back. *)
Lemma Trim_padded cs l v r :
  all_bytes (in_cutset cs) l = true -> all_bytes (in_cutset cs) r = true ->
  starts_in cs v = false -> ends_in cs v = false ->
  Trim (l +:+ v +:+ r) cs = v.
Proof.
  intros Hl Hr Hs He. unfold Trim.
  rewrite <- append_assoc, trimRight_app_all by exact Hr.
  destruct v as [|a v].
  - rewrite append_nil_r, trimRight_all by exact Hl. reflexivity.
  - rewrite trimRight_bare by (rewrite ends_in_app by discriminate; exact He).
    rewrite trimLeft_app_all by exact Hl. apply trimLeft_bare, Hs.
Qed.

End Bytes.

(** ** Package hostinfo *)

Section DeviceModel.

Context `{Host}.

Lemma linuxDeviceModel_range_bare paths :
  starts_in device_model_cutset (linuxDeviceModel_range paths) = false /\
  ends_in device_model_cutset (linuxDeviceModel_range paths) = false.
Proof.
  induction paths as [|path paths IH]; simpl; [split; reflexivity|].
  destruct (String.eqb _ EmptyString); simpl; [exact IH|apply Trim_bare_ends].
Qed.

Lemma linuxDeviceModel_range_empty paths :
  linuxDeviceModel_range paths = EmptyString <->
  forall path, path ∈ paths ->
    all_bytes (in_cutset device_model_cutset) (ReadFile path) = true.
Proof.
  induction paths as [|path paths IH]; simpl.
  - split; [|reflexivity]. intros _ path Hp. apply elem_of_nil in Hp. destruct Hp.
  - destruct (String.eqb_spec (Trim (ReadFile path) device_model_cutset) EmptyString)
      as [E|E]; simpl.
    + rewrite IH. apply Trim_empty_iff in E. split.
      * intros Hall p [->|Hp]%elem_of_cons; auto.
      * intros Hall p Hp. apply Hall. right. exact Hp.
    + split; [contradiction|]. intros Hall. destruct E.
      apply Trim_empty_iff, Hall. left.
Qed.

End DeviceModel.

Section OsRelease.

Lemma os_release_line_entry m line :
  os_release_line m line
  = match line_entry line with
    | None => m
    | Some (k, v) => <[k:=v]> m
    end.
Proof. unfold os_release_line, line_entry. destruct (IndexByte line _); reflexivity. Qed.

Lemma line_entry_bare line k v :
  line_entry line = Some (k, v) ->
  IndexByte k "="%char = None /\
  starts_in quote_cutset v = false /\ ends_in quote_cutset v = false.
Proof.
  unfold line_entry. destruct (IndexByte line "="%char) as [eq|] eqn:E; [|discriminate].
  intros [= <- <-]. split; [apply (IndexByte_Some _ _ _ E)|apply Trim_bare_ends].
Qed.

Lemma line_entry_roundtrip k v l r :
  IndexByte k "="%char = None ->
  all_bytes (in_cutset quote_cutset) l = true ->
  all_bytes (in_cutset quote_cutset) r = true ->
  starts_in quote_cutset v = false -> ends_in quote_cutset v = false ->
  line_entry (k +:+ String "="%char (l +:+ v +:+ r)) = Some (k, v).
Proof.
  intros Hk Hl Hr Hs He. unfold line_entry.
  rewrite (IndexByte_app _ _ _ Hk), slice_to_app, slice_from_app_1.
  rewrite Trim_padded by assumption. reflexivity.
Qed.

Lemma os_release_map_snoc lines line :
  os_release_map (lines ++ [line]) = os_release_line (os_release_map lines) line.
Proof. unfold os_release_map. rewrite fold_left_app. reflexivity. Qed.

(** The value of a key is the one of the last line that sets it. *)
Lemma os_release_map_lookup_iff lines k v :
  os_release_map lines !! k = Some v <->
  exists before line after,
    lines = before ++ line :: after /\
    line_entry line = Some (k, v) /\
    forall line', line' ∈ after -> forall v', line_entry line' <> Some (k, v').
Proof.
  induction lines as [|x lines IH] using rev_ind.
  - unfold os_release_map; simpl. rewrite lookup_empty. split; [discriminate|].
    intros (before & line & after & Heq & _). destruct before; discriminate.
  - rewrite os_release_map_snoc, os_release_line_entry.
    assert (forall before line after,
              lines ++ [x] = before ++ line :: after ->
              (after = [] /\ lines = before /\ x = line) \/
              (exists after', after = after' ++ [x] /\ lines = before ++ line :: after'))
      as Hsplit.
    { intros before line after Heq.
      destruct after as [|y after' _] using rev_ind.
      - left. apply app_inj_tail in Heq as [-> ->]. auto.
      - right. rewrite app_comm_cons, app_assoc in Heq.
        apply app_inj_tail in Heq as [-> ->]. eauto. }
    destruct (line_entry x) as [[k' v']|] eqn:Ex.
    + destruct (decide (k' = k)) as [->|Hne].
      * rewrite lookup_insert_eq. split.
        -- intros [= ->]. exists lines, x, []. split; [reflexivity|].
           split; [exact Ex|]. intros line' Hl. apply elem_of_nil in Hl. destruct Hl.
        -- intros (before & line & after & Heq & He & Hafter).
           destruct (Hsplit _ _ _ Heq) as [(-> & -> & ->)|(after' & -> & ->)].
           ++ congruence.
           ++ destruct (Hafter x) with (v' := v'); [|exact Ex].
              apply elem_of_app. right. left.
      * rewrite lookup_insert_ne by exact Hne. rewrite IH. split.
        -- intros (before & line & after & -> & He & Hafter).
           exists before, line, (after ++ [x]).
           split; [rewrite <- app_assoc; reflexivity|]. split; [exact He|].
           intros line' [Hl|Hl%list_elem_of_singleton]%elem_of_app v''; [apply Hafter, Hl|].
           subst line'. rewrite Ex. congruence.
        -- intros (before & line & after & Heq & He & Hafter).
           destruct (Hsplit _ _ _ Heq) as [(-> & -> & ->)|(after' & -> & ->)].
           ++ congruence.
           ++ exists before, line, after'. split; [reflexivity|]. split; [exact He|].
              intros line' Hl. apply Hafter, elem_of_app. left. exact Hl.
    + rewrite IH. split.
      * intros (before & line & after & -> & He & Hafter).
        exists before, line, (after ++ [x]).
        split; [rewrite <- app_assoc; reflexivity|]. split; [exact He|].
        intros line' [Hl|Hl%list_elem_of_singleton]%elem_of_app v''; [apply Hafter, Hl|].
        subst line'. rewrite Ex. discriminate.
      * intros (before & line & after & Heq & He & Hafter).
        destruct (Hsplit _ _ _ Heq) as [(-> & -> & ->)|(after' & -> & ->)].
        -- congruence.
        -- exists before, line, after'. split; [reflexivity|]. split; [exact He|].
           intros line' Hl. apply Hafter, elem_of_app. left. exact Hl.
Qed.

End OsRelease.

Section Qnap.

Lemma cut_prefix_spec prefix : forall s after,
  cut_prefix s prefix = Some after <-> s = prefix +:+ after.
Proof.
  induction prefix as [|p prefix IH]; intros s after.
  - simpl. rewrite append_nil_l. destruct s; split; congruence.
  - rewrite append_cons. destruct s as [|a s]; simpl; [split; discriminate|].
    destruct (Ascii.eqb_spec a p) as [->|Hne].
    + rewrite IH. split; congruence.
    + split; [discriminate|congruence].
Qed.

Lemma prefix_dec prefix s :
  (exists after, s = prefix +:+ after) \/ (forall after, s <> prefix +:+ after).
Proof.
  destruct (cut_prefix s prefix) as [after|] eqn:E.
  - left. exists after. apply cut_prefix_spec, E.
  - right. intros after Heq. apply cut_prefix_spec in Heq. congruence.
Qed.

Lemma example_CutPrefix_contract : @CutPrefix_contract example_Host.
Proof.
  intros s prefix. simpl. split.
  - intros after Heq. apply cut_prefix_spec in Heq. rewrite Heq. reflexivity.
  - intros Hno. destruct (cut_prefix s prefix) as [after|] eqn:E; [|reflexivity].
    apply cut_prefix_spec in E. destruct (Hno after E).
Qed.

Lemma Fields_ascii_no_space s : forall cur field,
  no_space cur = true -> field ∈ Fields_ascii cur s ->
  no_space field = true /\ field <> EmptyString.
Proof.
  induction s as [|a s IH]; intros cur field Hcur; simpl.
  - destruct (String.eqb_spec cur EmptyString) as [E|E].
    + intros Hf. apply elem_of_nil in Hf. destruct Hf.
    + intros ->%list_elem_of_singleton. auto.
  - destruct (asciiSpace a) eqn:Ha.
    + destruct (String.eqb_spec cur EmptyString) as [E|E].
      * apply IH. reflexivity.
      * intros [->|Hf]%elem_of_cons; [auto|]. revert Hf. apply IH. reflexivity.
    + apply IH. unfold no_space. rewrite all_bytes_app. simpl.
      rewrite Ha. simpl. rewrite andb_true_r. exact Hcur.
Qed.

Context `{Host}.
Hypothesis contract : CutPrefix_contract.

Lemma getQnapQtsVersion_range_spec fields :
  let r := getQnapQtsVersion_range fields in
  (r <> EmptyString -> "QTSFW_" +:+ r ∈ fields) /\
  ((forall field, field ∈ fields -> forall after, field <> "QTSFW_" +:+ after) ->
   r = EmptyString) /\
  ((forall field, field ∈ fields -> no_space field = true) -> no_space r = true).
Proof.
  induction fields as [|field fields (IH1 & IH2 & IH3)]; simpl.
  - split; [congruence|]. split; reflexivity.
  - destruct (prefix_dec "QTSFW_" field) as [[after ->]|Hno].
    + rewrite (proj1 (contract _ _) after eq_refl). split; [intros _; left|].
      split.
      * intros Hall. destruct (Hall _ (list_elem_of_here _ _) after eq_refl).
      * intros Hall. specialize (Hall _ (list_elem_of_here _ _)).
        unfold no_space in *. rewrite all_bytes_app in Hall.
        apply andb_true_iff in Hall as [_ Hall]. exact Hall.
    + rewrite (proj2 (contract _ _) Hno). split; [|split].
      * intros Hr. right. apply IH1, Hr.
      * intros Hall. apply IH2. intros f Hf. apply Hall. right. exact Hf.
      * intros Hall. apply IH3. intros f Hf. apply Hall. right. exact Hf.
Qed.

End Qnap.

Section DetectBinary.

Context `{Host}.

Lemma TrimSuffix_prefix s suffix : exists rest, s = TrimSuffix s suffix +:+ rest.
Proof.
  unfold TrimSuffix. destruct (HasSuffix s suffix).
  - eexists. symmetry. apply slice_to_from.
  - exists EmptyString. rewrite append_nil_r. reflexivity.
Qed.

Lemma cut_version_spec version :
  let v := if Nat.ltb 64 (String.length version) then slice_to 64 version else version in
  String.length v <= 64 /\ exists rest, version = v +:+ rest.
Proof.
  cbv zeta. destruct (Nat.ltb_spec 64 (String.length version)).
  - split; [apply slice_to_length|]. eexists. symmetry. apply slice_to_from.
  - split; [assumption|]. exists EmptyString. rewrite append_nil_r. reflexivity.
Qed.

End DetectBinary.

Example linuxDeviceModel_example :
  @linuxDeviceModel example_Host = "Raspberry Pi 4 Model B Rev 1.2"%string.
Proof. vm_compute. reflexivity. Qed.

Example getQnapQtsVersion_example :
  @getQnapQtsVersion example_Host "model=TS-453D  QTSFW_5.0.1 build=2234" = "5.0.1"%string.
Proof. vm_compute. reflexivity. Qed.

Example detectBinary_example :
  @detectBinary example_Host "iptables"
  = Some (mkBinInfo true "iptables v1.8.7 (nf_tables)" "nf_tables" EmptyString).
Proof. vm_compute. reflexivity. Qed.

(** X10.  [linuxDeviceModel] never returns a string that begins or ends
    with one of the bytes it trims (NUL, CR, LF, TAB, space), and it
    returns the empty string exactly when both files it reads consist of
    such bytes only (an unreadable file counts as empty). *)
Theorem linuxDeviceModel_trimmed `{Host} :
  starts_in device_model_cutset linuxDeviceModel = false /\
  ends_in device_model_cutset linuxDeviceModel = false /\
  (linuxDeviceModel = EmptyString <->
   forall path, path ∈ device_model_paths ->
     all_bytes (in_cutset device_model_cutset) (ReadFile path) = true).
Proof.
  unfold linuxDeviceModel.
  destruct (linuxDeviceModel_range_bare device_model_paths) as [Hs He].
  split; [exact Hs|]. split; [exact He|]. apply linuxDeviceModel_range_empty.
Qed.

(** X11.  The line callback of [linuxVersionMeta] reads back what an
    os-release line says: for a key without [=] and a value that neither
    begins nor ends with a quote character, the line [key=value], with any
    quote characters put around the value, makes the map hold the value
    under the key. *)
Theorem os_release_line_roundtrip (m : gmap string string) (k v l r : string) :
  IndexByte k "="%char = None ->
  all_bytes (in_cutset quote_cutset) l = true ->
  all_bytes (in_cutset quote_cutset) r = true ->
  starts_in quote_cutset v = false -> ends_in quote_cutset v = false ->
  os_release_line m (k +:+ String "="%char (l +:+ v +:+ r)) !! k = Some v.
Proof.
  intros Hk Hl Hr Hs He.
  rewrite os_release_line_entry, line_entry_roundtrip by assumption.
  apply lookup_insert_eq.
Qed.

Lemma os_release_line_roundtrip_witness :
  os_release_line ∅
    ("VERSION_ID" +:+ String "="%char
       (String dquote EmptyString +:+ "11.5" +:+ String dquote EmptyString))
    !! "VERSION_ID"%string
  = Some "11.5"%string.
Proof.
  apply (os_release_line_roundtrip ∅ "VERSION_ID" "11.5"
           (String dquote EmptyString) (String dquote EmptyString));
    reflexivity.
Defined.

(** X12.  In the map built from the lines of an os-release file the last
    assignment wins: a key holds a value exactly when some line assigns
    that value to it and no later line assigns to the same key. *)
Theorem os_release_map_last_wins (lines : list string) (k v : string) :
  os_release_map lines !! k = Some v <->
  exists before line after,
    lines = before ++ line :: after /\
    line_entry line = Some (k, v) /\
    forall line', line' ∈ after -> forall v', line_entry line' <> Some (k, v').
Proof. apply os_release_map_lookup_iff. Qed.

(** X13.  Whatever the lines are, no key of the map contains [=] and no
    value begins or ends with a quote character. *)
Theorem os_release_map_clean (lines : list string) (k v : string) :
  os_release_map lines !! k = Some v ->
  IndexByte k "="%char = None /\
  starts_in quote_cutset v = false /\ ends_in quote_cutset v = false.
Proof.
  intros (before & line & after & _ & He & _)%os_release_map_lookup_iff.
  apply (line_entry_bare line), He.
Qed.

Lemma os_release_map_clean_witness :
  IndexByte "PRETTY_NAME" "="%char = None /\
  starts_in quote_cutset "Debian GNU/Linux 11 (bullseye)" = false /\
  ends_in quote_cutset "Debian GNU/Linux 11 (bullseye)" = false.
Proof.
  apply (os_release_map_clean
           [ "# os-release"%string;
             "PRETTY_NAME=" +:+ String dquote ("Debian GNU/Linux 11 (bullseye)"
                                               +:+ String dquote EmptyString);
             "ID=debian"%string ]).
  vm_compute. reflexivity.
Defined.

(** X14.  On ASCII input, and with [strs.CutPrefix] doing what its comment
    says, [getQnapQtsVersion] returns a string without spaces; when the
    result is not empty, [QTSFW_] followed by it is one of the
    space-separated fields of the input; and when no field begins with
    [QTSFW_] the result is empty. *)
Theorem getQnapQtsVersion_field `{Host} (versionInfo : string) :
  CutPrefix_contract ->
  all_bytes is_ascii versionInfo = true ->
  no_space (getQnapQtsVersion versionInfo) = true /\
  (getQnapQtsVersion versionInfo <> EmptyString ->
   "QTSFW_" +:+ getQnapQtsVersion versionInfo ∈ Fields_ascii EmptyString versionInfo) /\
  ((forall field, field ∈ Fields_ascii EmptyString versionInfo ->
      forall after, field <> "QTSFW_" +:+ after) ->
   getQnapQtsVersion versionInfo = EmptyString).
Proof.
  intros Hc Hascii. unfold getQnapQtsVersion, Fields. rewrite Hascii.
  destruct (getQnapQtsVersion_range_spec Hc (Fields_ascii EmptyString versionInfo))
    as (H1 & H2 & H3).
  split; [|split; assumption].
  apply H3. intros field Hf.
  apply (Fields_ascii_no_space versionInfo EmptyString field eq_refl Hf).
Qed.

Lemma getQnapQtsVersion_field_witness :
  no_space (@getQnapQtsVersion example_Host "model=TS-453D  QTSFW_5.0.1 build=2234") = true /\
  (@getQnapQtsVersion example_Host "model=TS-453D  QTSFW_5.0.1 build=2234" <> EmptyString ->
   "QTSFW_" +:+ @getQnapQtsVersion example_Host "model=TS-453D  QTSFW_5.0.1 build=2234"
     ∈ Fields_ascii EmptyString "model=TS-453D  QTSFW_5.0.1 build=2234") /\
  ((forall field, field ∈ Fields_ascii EmptyString "model=TS-453D  QTSFW_5.0.1 build=2234" ->
      forall after, field <> "QTSFW_" +:+ after) ->
   @getQnapQtsVersion example_Host "model=TS-453D  QTSFW_5.0.1 build=2234" = EmptyString).
Proof.
  apply (@getQnapQtsVersion_field example_Host "model=TS-453D  QTSFW_5.0.1 build=2234").
  - apply example_CutPrefix_contract.
  - vm_compute. reflexivity.
Defined.

(** X15.  When the version pattern yields five strings on every match, as
    a pattern with four groups does, [detectBinary] returns without a
    run-time panic, the version it reports is at most 64 bytes long, and
    for a binary it reports present that version is a prefix of what the
    binary wrote. *)
Theorem detectBinary_version_bound `{Host} (name : string) :
  (forall s result, FindStringSubmatch s = Some result -> length result = 5) ->
  exists info,
    detectBinary name = Some info /\
    String.length (Version info) <= 64 /\
    (Present info = true ->
     exists path out rest,
       LookPath name = Some path /\ RunVersion path = (out, None) /\
       out = Version info +:+ rest).
Proof.
  intros Hfive. unfold detectBinary.
  destruct (LookPath name) as [path|].
  2:{ eexists. split; [reflexivity|]. simpl. split; [lia|discriminate]. }
  destruct (RunVersion path) as [out [err|]] eqn:Hrun.
  { eexists. split; [reflexivity|]. simpl. split; [lia|discriminate]. }
  destruct (cut_version_spec (TrimSuffix out (String newline EmptyString)))
    as (Hlen & rest & Hrest).
  destruct (TrimSuffix_prefix out (String newline EmptyString)) as (rest' & Hout).
  set (version := if Nat.ltb 64 _ then _ else _) in *.
  assert (out = version +:+ (rest +:+ rest')) as Hprefix.
  { rewrite <- append_assoc, <- Hrest. exact Hout. }
  destruct (String.eqb name "iptables" || String.eqb name "ip6tables").
  - destruct (FindStringSubmatch version) as [result|] eqn:Hfind.
    + destruct (lookup_lt_is_Some_2 result 4) as [flavor Hflavor];
        [rewrite (Hfive _ _ Hfind); lia|].
      rewrite Hflavor. eexists. split; [reflexivity|]. simpl.
      split; [exact Hlen|]. intros _. exists path, out, (rest +:+ rest'). auto.
    + eexists. split; [reflexivity|]. simpl. split; [exact Hlen|]. intros _. exists path, out, (rest +:+ rest'). auto.
  - eexists. split; [reflexivity|]. simpl. split; [exact Hlen|]. intros _. exists path, out, (rest +:+ rest'). auto.
Qed.

Lemma detectBinary_version_bound_witness :
  exists info,
    @detectBinary example_Host "iptables" = Some info /\
    String.length (Version info) <= 64 /\
    (Present info = true ->
     exists path out rest,
       @LookPath example_Host "iptables" = Some path /\
       @RunVersion example_Host path = (out, None) /\
       out = Version info +:+ rest).
Proof.
  apply (@detectBinary_version_bound example_Host "iptables").
  intros s result [= <-]. reflexivity.
Defined.

(** X16.  The fields [detectBinary] returns agree with one another: a
    binary not reported present has neither version nor flavor, a binary
    reported present has no error text, and a flavor is only ever reported
    for [iptables] and [ip6tables]. *)
Theorem detectBinary_consistent `{Host} (name : string) (info : LinuxFWBinInfo) :
  detectBinary name = Some info ->
  (Present info = false -> Version info = EmptyString /\ Flavor info = EmptyString) /\
  (Present info = true -> Error info = EmptyString) /\
  (Flavor info <> EmptyString -> name = "iptables"%string \/ name = "ip6tables"%string).
Proof.
  unfold detectBinary.
  destruct (LookPath name) as [path|].
  2:{ intros [= <-]. simpl. repeat split; congruence. }
  destruct (RunVersion path) as [out [err|]].
  { intros [= <-]. simpl. repeat split; congruence. }
  set (version := if Nat.ltb 64 _ then _ else _).
  destruct (String.eqb_spec name "iptables") as [->|Hn1]; simpl.
  { destruct (FindStringSubmatch version) as [result|];
      [destruct (result !! 4); [|discriminate]|];
      intros [= <-]; simpl; repeat split; try congruence; auto. }
  destruct (String.eqb_spec name "ip6tables") as [->|Hn2]; simpl.
  { destruct (FindStringSubmatch version) as [result|];
      [destruct (result !! 4); [|discriminate]|];
      intros [= <-]; simpl; repeat split; try congruence; auto. }
  intros [= <-]; simpl; repeat split; try congruence.
Qed.

Lemma detectBinary_consistent_witness :
  (Present (mkBinInfo true "iptables v1.8.7 (nf_tables)" "nf_tables" EmptyString) = false ->
   Version (mkBinInfo true "iptables v1.8.7 (nf_tables)" "nf_tables" EmptyString) = EmptyString /\
   Flavor (mkBinInfo true "iptables v1.8.7 (nf_tables)" "nf_tables" EmptyString) = EmptyString) /\
  (Present (mkBinInfo true "iptables v1.8.7 (nf_tables)" "nf_tables" EmptyString) = true ->
   Error (mkBinInfo true "iptables v1.8.7 (nf_tables)" "nf_tables" EmptyString) = EmptyString) /\
  (Flavor (mkBinInfo true "iptables v1.8.7 (nf_tables)" "nf_tables" EmptyString) <> EmptyString ->
   "iptables"%string = "iptables"%string \/ "iptables"%string = "ip6tables"%string).
Proof.
  apply (@detectBinary_consistent example_Host "iptables"). vm_compute. reflexivity.
Defined.

Section NewKey.

(** With an observation of a key the batch does not have, the canonical
    snapshot gains exactly that observation. *)
Lemma canonical_new_key batch out out' r :
  canonical_for batch out -> canonical_for (r :: batch) out' ->
  ~ zero_key r -> (forall p, p ∈ batch -> ~ same_key p r) ->
  out' ≡ₚ r :: out.
Proof.
  intros (Hs & Hmin & Hcov) (Hs' & Hmin' & Hcov') Hnz Hnew.
  assert (r ∉ out) as Hr.
  { intros Hin. destruct (Hmin r Hin) as (Hb & _).
    apply (Hnew r Hb). split; reflexivity. }
  apply NoDup_Permutation.
  - apply lessThan_sorted_NoDup, Hs'.
  - constructor; [exact Hr|apply lessThan_sorted_NoDup, Hs].
  - intros x. rewrite elem_of_cons. split.
    + intros Hx. destruct (Hmin' x Hx) as (Hxb & Hxnz & Hxmin).
      apply elem_of_cons in Hxb as [->|Hxb]; [left; reflexivity|]. right.
      destruct (Hcov x Hxb Hxnz) as (q & Hq & Hqx).
      destruct (Hmin q Hq) as (Hqb & _ & Hqmin).
      destruct (pair_le_antisym x q) as [Hi Hp].
      * apply Hxmin; [right; exact Hqb|exact Hqx].
      * apply Hqmin; [exact Hxb|apply same_key_sym, Hqx].
      * rewrite (Port_fields_eq x q (same_key_sym _ _ Hqx) Hi Hp). exact Hq.
    + intros [->|Hx].
      * destruct (Hcov' r (list_elem_of_here _ _) Hnz) as (q & Hq & Hqr).
        destruct (Hmin' q Hq) as (Hqb & _).
        apply elem_of_cons in Hqb as [->|Hqb]; [exact Hq|].
        destruct (Hnew q Hqb Hqr).
      * destruct (Hmin x Hx) as (Hxb & Hxnz & Hxmin).
        destruct (Hcov' x (list_elem_of_further _ _ _ Hxb) Hxnz) as (q & Hq & Hqx).
        destruct (Hmin' q Hq) as (Hqb & _ & Hqmin).
        apply elem_of_cons in Hqb as [->|Hqb];
          [destruct (Hnew x Hxb (same_key_sym _ _ Hqx))|].
        destruct (pair_le_antisym x q) as [Hi Hp].
        -- apply Hxmin; [exact Hqb|exact Hqx].
        -- apply Hqmin; [right; exact Hxb|apply same_key_sym, Hqx].
        -- rewrite (Port_fields_eq x q (same_key_sym _ _ Hqx) Hi Hp). exact Hq.
Qed.

End NewKey.

(** X17.  A listener on a new key is always reported: when the batch
    gains an observation whose (protocol, port) key it did not have, and
    which is not the zero key, the new snapshot is one observation longer
    and [sameInodes] against the old one answers false. *)
Theorem new_key_is_a_change (batch out out' : List) (r : Port) :
  ~ zero_key r -> (forall p, p ∈ batch -> ~ same_key p r) ->
  sortAndDedup batch = Some out -> sortAndDedup (r :: batch) = Some out' ->
  length out' = S (length out) /\ sameInodes out out' = Some false.
Proof.
  intros Hnz Hnew Hout%sortAndDedup_iff Hout'%sortAndDedup_iff.
  pose proof (canonical_new_key _ _ _ _ Hout Hout' Hnz Hnew) as Hperm.
  apply Permutation_length in Hperm. simpl in Hperm.
  split; [exact Hperm|].
  apply sameInodes_false. intros Hall%Forall2_length. lia.
Qed.

Lemma new_key_is_a_change_witness :
  length [ mkPort "tcp" 22 "sshd" "sockA"; mkPort "tcp" 443 "nginx" "sock7" ]
  = S (length ssh_snapshot) /\
  sameInodes ssh_snapshot
    [ mkPort "tcp" 22 "sshd" "sockA"; mkPort "tcp" 443 "nginx" "sock7" ]
  = Some false.
Proof.
  apply (new_key_is_a_change ssh_snapshot _ _ (mkPort "tcp" 443 "nginx" "sock7")).
  - intros [Hq _]. discriminate.
  - unfold ssh_snapshot.
    intros p ->%list_elem_of_singleton [_ Hp]. discriminate.
  - vm_compute. reflexivity.
  - vm_compute. reflexivity.
Defined.
